(** * CPU FLOPS benchmark (AVX-512 FMA): shallow embedding and verification

    The program under study is [flops_benchmark.cpp]: two compute kernels
    ([benchmark_avx512_sp], [benchmark_avx512_dp]) that time a loop of ten
    independent vector fused multiply-adds, a thread orchestrator
    ([run_multithread_benchmark]) and the report driver ([main]).

    Floating-point values are IEEE 754 binary32 / binary64 numbers, modelled
    with the Standard Library's [spec_float] and its rounding functions;
    [size_t] is a 64-bit unsigned integer, modelled in [Z] with its
    wrap-around written out. *)

From stdpp Require Import base list.
From Stdlib Require Import ZArith Lia Bool Ascii String SpecFloat.
Open Scope Z_scope.

(** ** IEEE 754 arithmetic *)

Section FloatFormat.
(** [prec] is the precision in bits, [emax] the exponent of infinity. *)
Variables prec emax : Z.

(** Conversion of an integer, rounded to nearest even. *)
Definition of_Z (z : Z) : spec_float := binary_normalize prec emax z 0 false.

(** A decimal literal [num / den], both exactly representable, converted
    to the nearest number of the format (the division rounds once). *)
Definition literal (num den : Z) : spec_float :=
  SFdiv prec emax (of_Z num) (of_Z den).

(** The exact, unrounded product of two numbers. *)
Definition exact_mul (x y : spec_float) : spec_float :=
  match x, y with
  | S754_finite sx mx ex, S754_finite sy my ey =>
      S754_finite (xorb sx sy) (mx * my) (ex + ey)
  | _, _ => SFmul prec emax x y
  end.

(** Fused multiply-add [x * y + z] with a single rounding. *)
Definition SFfma (x y z : spec_float) : spec_float :=
  match exact_mul x y, z with
  | S754_finite s m e, S754_zero _ => binary_round prec emax s m e
  | p, _ => SFadd prec emax p z
  end.

(** The number with exactly [prec] significant bits that equals
    [K * 2 ^ e], for [K] of at most [prec] bits. *)
Definition canon (s : bool) (K : positive) (e : Z) : spec_float :=
  let d := Z.pos (digits2_pos K) in
  S754_finite s (Z.to_pos (Z.pos K * 2 ^ (prec - d))) (e + d - prec).
End FloatFormat.

Definition is_finite (x : spec_float) : bool :=
  match x with
  | S754_finite _ _ _ | S754_zero _ => true
  | _ => false
  end.

Definition sign_of (x : spec_float) : option bool :=
  match x with
  | S754_zero s | S754_infinity s | S754_finite s _ _ => Some s
  | S754_nan => None
  end.

(** [float] is binary32, [double] is binary64. *)
Definition float := spec_float.
Definition double := spec_float.

Definition Fprec : Z := 24.
Definition Femax : Z := 128.
Definition Dprec : Z := 53.
Definition Demax : Z := 1024.

Definition Dadd : double -> double -> double := SFadd Dprec Demax.
Definition Dmul : double -> double -> double := SFmul Dprec Demax.
Definition Ddiv : double -> double -> double := SFdiv Dprec Demax.
Definition D_of_Z : Z -> double := of_Z Dprec Demax.

(** ** [size_t] *)

Definition SIZE_MAX1 : Z := 2 ^ 64.
Definition to_size_t (z : Z) : Z := z mod SIZE_MAX1.

(** ** Program constants *)

Definition ITERATIONS : Z := 100000000.
Definition UNROLL : Z := 10.

(** ** 512-bit vectors *)

(** A vector register is the list of its lanes: 16 [float]s or 8
    [double]s. *)
Definition vec := list spec_float.

Definition set1 (lanes : nat) (a : spec_float) : vec := replicate lanes a.

Fixpoint map3 (f : spec_float -> spec_float -> spec_float -> spec_float)
    (a b c : vec) : vec :=
  match a, b, c with
  | x :: a', y :: b', z :: c' => f x y z :: map3 f a' b' c'
  | _, _, _ => []
  end.

(** [reduce_add] follows the reduction tree of the [_mm512_reduce_add]
    sequence: the upper half is added onto the lower half until one lane
    is left; [k] is the logarithm of the number of lanes. *)
Fixpoint reduce_add (add : spec_float -> spec_float -> spec_float)
    (k : nat) (v : vec) : spec_float :=
  match k with
  | O => List.hd S754_nan v
  | S k' =>
      let len := Nat.pow 2 k' in
      reduce_add add k' (zip_with add (take len v) (drop len v))
  end.

(** ** The vector kernel *)

(** The ten accumulators [v0] .. [v9]. *)
Record accs := Accs {
  v0 : vec; v1 : vec; v2 : vec; v3 : vec; v4 : vec;
  v5 : vec; v6 : vec; v7 : vec; v8 : vec; v9 : vec
}.

Definition acc_list (a : accs) : list vec :=
  [v0 a; v1 a; v2 a; v3 a; v4 a; v5 a; v6 a; v7 a; v8 a; v9 a].

(** What a kernel run leaves behind: the final loop counter, the
    accumulators and the value stored in the volatile [sink]. *)
Record kernel_result := KernelResult {
  k_steps : Z;
  k_accs : accs;
  k_sink : spec_float
}.

Section Kernel.
Variables prec emax : Z.
(** [lanes = 2 ^ log_lanes] elements per 512-bit vector. *)
Variable log_lanes : nat.

Definition lanes : nat := Nat.pow 2 log_lanes.

Definition fmadd (a b c : vec) : vec := map3 (SFfma prec emax) a b c.
Definition vreduce (v : vec) : spec_float :=
  reduce_add (SFadd prec emax) log_lanes v.
Definition lit (num den : Z) : spec_float := literal prec emax num den.

(** The seeds 1.0, 0.9999, ..., 0.9991. *)
Definition seeds : list spec_float :=
  [of_Z prec emax 1; lit 9999 10000; lit 9998 10000; lit 9997 10000;
   lit 9996 10000; lit 9995 10000; lit 9994 10000; lit 9993 10000;
   lit 9992 10000; lit 9991 10000].

Definition kernel_init : accs :=
  {| v0 := set1 lanes (of_Z prec emax 1);
     v1 := set1 lanes (lit 9999 10000);
     v2 := set1 lanes (lit 9998 10000);
     v3 := set1 lanes (lit 9997 10000);
     v4 := set1 lanes (lit 9996 10000);
     v5 := set1 lanes (lit 9995 10000);
     v6 := set1 lanes (lit 9994 10000);
     v7 := set1 lanes (lit 9993 10000);
     v8 := set1 lanes (lit 9992 10000);
     v9 := set1 lanes (lit 9991 10000) |}.

(** [mul = 1.0000001] and [add = 0.0000001], in the kernel's format. *)
Definition mul_const : spec_float := lit 10000001 10000000.
Definition add_const : spec_float := lit 1 10000000.
Definition vmul : vec := set1 lanes mul_const.
Definition vadd : vec := set1 lanes add_const.

(** One loop iteration: ten independent FMAs. *)
Definition kernel_body (a : accs) : accs :=
  {| v0 := fmadd (v0 a) vmul vadd;
     v1 := fmadd (v1 a) vmul vadd;
     v2 := fmadd (v2 a) vmul vadd;
     v3 := fmadd (v3 a) vmul vadd;
     v4 := fmadd (v4 a) vmul vadd;
     v5 := fmadd (v5 a) vmul vadd;
     v6 := fmadd (v6 a) vmul vadd;
     v7 := fmadd (v7 a) vmul vadd;
     v8 := fmadd (v8 a) vmul vadd;
     v9 := fmadd (v9 a) vmul vadd |}.

(** [for (size_t i = 0; i < iterations; i++) body]: [None] when the fuel
    runs out before the loop condition fails. *)
Fixpoint kernel_loop (fuel : nat) (i iterations : Z) (a : accs)
    : option (Z * accs) :=
  if i <? iterations then
    match fuel with
    | O => None
    | S fuel' =>
        kernel_loop fuel' (to_size_t (i + 1)) iterations (kernel_body a)
    end
  else Some (i, a).

(** The value written to the volatile sink: the ten horizontal sums,
    added from left to right. *)
Definition kernel_sink (a : accs) : spec_float :=
  let add := SFadd prec emax in
  add (add (add (add (add (add (add (add (add
    (vreduce (v0 a)) (vreduce (v1 a))) (vreduce (v2 a))) (vreduce (v3 a)))
    (vreduce (v4 a))) (vreduce (v5 a))) (vreduce (v6 a))) (vreduce (v7 a)))
    (vreduce (v8 a))) (vreduce (v9 a)).

Definition kernel (iterations : Z) : option kernel_result :=
  match kernel_loop (Z.to_nat iterations) 0 iterations kernel_init with
  | Some (i, a) =>
      Some {| k_steps := i; k_accs := a; k_sink := kernel_sink a |}
  | None => None
  end.

(** The scalar recurrence of one lane. *)
Definition lane_step (x : spec_float) : spec_float :=
  SFfma prec emax x mul_const add_const.

(** The accumulators after [n] iterations, each lane following
    [lane_step]. *)
Definition accs_after (n : nat) : accs :=
  let f s := set1 lanes (Nat.iter n lane_step s) in
  {| v0 := f (of_Z prec emax 1);
     v1 := f (lit 9999 10000);
     v2 := f (lit 9998 10000);
     v3 := f (lit 9997 10000);
     v4 := f (lit 9996 10000);
     v5 := f (lit 9995 10000);
     v6 := f (lit 9994 10000);
     v7 := f (lit 9993 10000);
     v8 := f (lit 9992 10000);
     v9 := f (lit 9991 10000) |}.
End Kernel.

(** ** The timing harness *)

(** What a benchmark call yields: the kernel's traces and the returned
    throughput. *)
Record bench_result := BenchResult {
  b_kernel : kernel_result;
  b_flops : double
}.

(** [flops = (double)iterations * UNROLL * width * 2], evaluated from left
    to right in [double]. *)
Definition flops_count (width : Z) (iterations : Z) : double :=
  Dmul (Dmul (Dmul (D_of_Z iterations) (D_of_Z UNROLL)) (D_of_Z width))
       (D_of_Z 2).

(** [return flops / elapsed.count()]. *)
Definition throughput (width : Z) (iterations : Z) (elapsed : double)
    : double :=
  Ddiv (flops_count width iterations) elapsed.

(** [elapsed] is the value of [elapsed.count()], the seconds between the
    two clock readings, as a [double]. *)
Definition benchmark_avx512_sp (iterations : Z) (elapsed : double)
    : option bench_result :=
  match kernel Fprec Femax 4 iterations with
  | Some k => Some {| b_kernel := k; b_flops := throughput 16 iterations elapsed |}
  | None => None
  end.

Definition benchmark_avx512_dp (iterations : Z) (elapsed : double)
    : option bench_result :=
  match kernel Dprec Demax 3 iterations with
  | Some k => Some {| b_kernel := k; b_flops := throughput 8 iterations elapsed |}
  | None => None
  end.

(** The two kernels, by precision. *)
Inductive precision := FP32 | FP64.

#[global] Instance precision_eq_dec : EqDecision precision.
Proof. solve_decision. Defined.

Definition lanes_of (p : precision) : Z :=
  match p with FP32 => 16 | FP64 => 8 end.

(** The throughput formula of the specification: the integer operation
    count [iterations * 10 * lanes * 2], converted once, divided by the
    elapsed seconds. *)
Definition spec_throughput (p : precision) (iterations : Z)
    (elapsed : double) : double :=
  Ddiv (D_of_Z (iterations * 10 * lanes_of p * 2)) elapsed.

Definition fprec (p : precision) : Z :=
  match p with FP32 => Fprec | FP64 => Dprec end.
Definition femax (p : precision) : Z :=
  match p with FP32 => Femax | FP64 => Demax end.
Definition log_lanes_of (p : precision) : nat :=
  match p with FP32 => 4%nat | FP64 => 3%nat end.

Definition benchmark (p : precision) : Z -> double -> option bench_result :=
  match p with
  | FP32 => benchmark_avx512_sp
  | FP64 => benchmark_avx512_dp
  end.

(** ** The thread orchestrator *)

(** [size_t iterations_per_thread = ITERATIONS / num_threads]: the [int]
    divisor is converted to [size_t]. *)
Definition split_iterations (total num_threads : Z) : Z :=
  total / to_size_t num_threads.

Definition iterations_per_thread (num_threads : Z) : Z :=
  split_iterations ITERATIONS num_threads.

(** [double total = 0; for (double r : results) total += r;] *)
Definition aggregate (results : list double) : double :=
  fold_left Dadd results (S754_zero false).

(** The iteration counts handed to the workers of one phase, by worker
    index: every lambda reads the same [iterations_per_thread]. *)
Definition worker_shares (total num_threads : Z) : list Z :=
  List.map (fun _ => split_iterations total num_threads)
           (seq 0 (Z.to_nat num_threads)).

(** A [std::thread] of the [threads] vector: the precision of the kernel it
    runs, the captured loop index [i] and how far it got. *)
Inductive tstatus := Running | Finished | Joined.

Record thread := Thread {
  t_prec : precision;
  t_id : nat;
  t_status : tstatus
}.

(** Where the orchestrator stands: in a spawn loop at index [i], in a join
    loop at position [j], or past the last sum. *)
Inductive pc :=
  | PSpawn (p : precision) (i : nat)
  | PJoin (p : precision) (j : nat)
  | PDone.

Inductive mt_event :=
  | EvSpawn (p : precision) (i : nat) (share : Z)
  | EvWrite (p : precision) (i : nat) (slot : nat) (v : double)
  | EvJoin (p : precision) (j : nat)
  | EvSum (p : precision) (total : double).

(** The state of one call of [run_multithread_benchmark]; [mt_log] records
    the events so far, newest first. *)
Record mt_state := MtState {
  mt_pc : pc;
  mt_threads : list thread;
  results_sp : list double;
  results_dp : list double;
  total_sp : option double;
  total_dp : option double;
  mt_log : list mt_event
}.

Definition results_of (p : precision) (s : mt_state) : list double :=
  match p with FP32 => results_sp s | FP64 => results_dp s end.

Definition set_results (p : precision) (r : list double) (s : mt_state)
    : mt_state :=
  match p with
  | FP32 => MtState (mt_pc s) (mt_threads s) r (results_dp s)
                    (total_sp s) (total_dp s) (mt_log s)
  | FP64 => MtState (mt_pc s) (mt_threads s) (results_sp s) r
                    (total_sp s) (total_dp s) (mt_log s)
  end.

Definition set_threads (ts : list thread) (s : mt_state) : mt_state :=
  MtState (mt_pc s) ts (results_sp s) (results_dp s)
          (total_sp s) (total_dp s) (mt_log s).

Definition set_pc (c : pc) (s : mt_state) : mt_state :=
  MtState c (mt_threads s) (results_sp s) (results_dp s)
          (total_sp s) (total_dp s) (mt_log s).

Definition set_total (p : precision) (t : double) (s : mt_state)
    : mt_state :=
  match p with
  | FP32 => MtState (mt_pc s) (mt_threads s) (results_sp s) (results_dp s)
                    (Some t) (total_dp s) (mt_log s)
  | FP64 => MtState (mt_pc s) (mt_threads s) (results_sp s) (results_dp s)
                    (total_sp s) (Some t) (mt_log s)
  end.

Definition log_event (e : mt_event) (s : mt_state) : mt_state :=
  MtState (mt_pc s) (mt_threads s) (results_sp s) (results_dp s)
          (total_sp s) (total_dp s) (e :: mt_log s).

(** The scheduler picks the orchestrator or the worker at position [k] of
    [threads]. *)
Inductive action := Orchestrator | Worker (k : nat).

Section Round.
(** [n_threads] is [num_threads], [share] is [iterations_per_thread] and
    [el p i] is the duration worker [i] of phase [p] measures. *)
Variable n_threads : nat.
Variable share : Z.
Variable el : precision -> nat -> double.

(** [std::vector<double> results_sp(num_threads), results_dp(num_threads)]:
    value-initialised slots; then the first spawn loop. *)
Definition round_init : mt_state :=
  {| mt_pc := PSpawn FP32 0;
     mt_threads := [];
     results_sp := replicate n_threads (S754_zero false);
     results_dp := replicate n_threads (S754_zero false);
     total_sp := None;
     total_dp := None;
     mt_log := [] |}.

(** One step of the orchestrating thread.  [join] blocks ([None]) until
    the thread has finished. *)
Definition orch_step (s : mt_state) : option mt_state :=
  match mt_pc s with
  | PSpawn p i =>
      if (i <? n_threads)%nat then
        Some (log_event (EvSpawn p i share)
               (set_pc (PSpawn p (S i))
                 (set_threads (mt_threads s ++ [Thread p i Running]) s)))
      else Some (set_pc (PJoin p 0) s)
  | PJoin p j =>
      match mt_threads s !! j with
      | Some t =>
          match t_status t with
          | Finished =>
              Some (log_event (EvJoin p j)
                     (set_pc (PJoin p (S j))
                       (set_threads
                          (<[j := Thread (t_prec t) (t_id t) Joined]>
                             (mt_threads s)) s)))
          | _ => None
          end
      | None =>
          let total := aggregate (results_of p s) in
          let s' := log_event (EvSum p total) (set_total p total s) in
          match p with
          | FP32 => Some (set_pc (PSpawn FP64 0) (set_threads [] s'))
          | FP64 => Some (set_pc PDone s')
          end
      end
  | PDone => None
  end.

(** The whole run of the worker at position [k]: the benchmark call and
    the store [results[i] = ...] into the vector of its precision.  A
    store outside the vector is undefined ([None]). *)
Definition worker_step (k : nat) (s : mt_state) : option mt_state :=
  match mt_threads s !! k with
  | Some (Thread p i Running) =>
      match benchmark p share (el p i) with
      | Some r =>
          if (i <? List.length (results_of p s))%nat then
            Some (log_event (EvWrite p i i (b_flops r))
                   (set_threads (<[k := Thread p i Finished]> (mt_threads s))
                     (set_results p (<[i := b_flops r]> (results_of p s)) s)))
          else None
      | None => None
      end
  | _ => None
  end.

Definition mt_step (a : action) (s : mt_state) : option mt_state :=
  match a with
  | Orchestrator => orch_step s
  | Worker k => worker_step k s
  end.

(** Running a schedule; [None] when it asks for a step that cannot be
    taken. *)
Fixpoint run_schedule (sched : list action) (s : mt_state)
    : option mt_state :=
  match sched with
  | [] => Some s
  | a :: rest =>
      match mt_step a s with
      | Some s' => run_schedule rest s'
      | None => None
      end
  end.

(** The schedule that lets every worker finish right after it is
    spawned. *)
Definition phase_schedule : list action :=
  List.concat (List.map (fun k => [Orchestrator; Worker k]) (seq 0 n_threads))
    ++ Orchestrator :: List.map (fun _ => Orchestrator) (seq 0 n_threads)
    ++ [Orchestrator].

Definition eager_schedule : list action := phase_schedule ++ phase_schedule.

(** The throughputs the workers of phase [p] return, by worker index. *)
Definition worker_flops (p : precision) : option (list double) :=
  mapM (fun i => b_flops <$> benchmark p share (el p i)) (seq 0 n_threads).
End Round.

(** ** Events of a multi-thread round, read off the log *)

Definition prec_eqb (p q : precision) : bool :=
  match p, q with
  | FP32, FP32 | FP64, FP64 => true
  | _, _ => false
  end.

Definition is_spawn (p : precision) (i : nat) (e : mt_event) : bool :=
  match e with
  | EvSpawn q j _ => prec_eqb p q && (i =? j)%nat
  | _ => false
  end.

Definition is_write (p : precision) (i : nat) (e : mt_event) : bool :=
  match e with
  | EvWrite q j _ _ => prec_eqb p q && (i =? j)%nat
  | _ => false
  end.

Definition is_join (p : precision) (i : nat) (e : mt_event) : bool :=
  match e with
  | EvJoin q j => prec_eqb p q && (i =? j)%nat
  | _ => false
  end.

Definition is_sum (p : precision) (e : mt_event) : bool :=
  match e with
  | EvSum q _ => prec_eqb p q
  | _ => false
  end.

(** Whether an event satisfying [f] has been logged. *)
Definition logged (f : mt_event -> bool) (log : list mt_event) : bool :=
  existsb f log.

(** The number of stores into slot [slot] of the vector of precision [p]. *)
Definition writes_to (p : precision) (slot : nat) (log : list mt_event) : nat :=
  List.length
    (List.filter
       (fun e => match e with
                 | EvWrite q _ sl _ => prec_eqb p q && (slot =? sl)%nat
                 | _ => false
                 end) log).

(** ** The report driver *)

(** What the program cannot decide itself: whether the processor has
    AVX-512F, the reported number of hardware threads and the durations
    the clock yields for each benchmark call. *)
Record machine := Machine {
  avx512f : bool;
  hardware_concurrency : Z;
  elapsed_single : precision -> double;
  elapsed_worker : Z -> precision -> nat -> double
}.

(** How the process ends: a return from [main], a fatal signal, or an
    execution the model does not define. *)
Inductive outcome := Exit (status : Z) | Killed (signal : Z) | Undefined.

Definition SIGILL : Z := 4.

Inductive event :=
  | Print (s : string)
  | PrintInt (z : Z)
  | PrintFixed (digits : Z) (x : double)
  | Measure (p : precision) (iterations : Z)
  | Round (p : precision) (num_threads : Z) (share : Z).

Arguments Print s%_string.

(** Programs that write events and may stop early. *)
Definition prog (A : Type) : Type := list event * (outcome + A).

Definition pret {A} (a : A) : prog A := ([], inr a).
Definition pbind {A B} (c : prog A) (f : A -> prog B) : prog B :=
  match c with
  | (out, inl o) => (out, inl o)
  | (out, inr a) => let '(out', r) := f a in (out ++ out', r)
  end.
Definition emit (e : event) : prog unit := ([e], inr tt).
Definition stop {A} (o : outcome) : prog A := ([], inl o).

Notation "x <- c ;; k" := (pbind c (fun x => k))
  (at level 100, c at next level, right associativity).
Notation "c ;;; k" := (pbind c (fun _ => k))
  (at level 100, right associativity).

Definition nl : string := String "010"%char EmptyString.

(** [std::cout << std::fixed << std::setprecision(2) << x / 1e9]. *)
Definition print_gflops (x : double) : prog unit :=
  emit (PrintFixed 2 (Ddiv x (D_of_Z 1000000000))).

(** A 512-bit vector instruction on a processor without AVX-512F raises an
    invalid-opcode fault, which ends the process with [SIGILL]; the kernels
    start with such an instruction. *)
Definition exec_vector {A} (m : machine) (r : option A) : prog A :=
  if avx512f m then
    match r with
    | Some a => pret a
    | None => stop Undefined
    end
  else stop (Killed SIGILL).

Definition call_benchmark (m : machine) (p : precision) (iterations : Z)
    : prog double :=
  emit (Measure p iterations) ;;;
  r <- exec_vector m (benchmark p iterations (elapsed_single m p)) ;;
  pret (b_flops r).

(** One phase of a round: spawn, join and sum.  The result vector after
    the join holds each worker's throughput in the slot of its index. *)
Definition run_phase (m : machine) (p : precision) (num_threads : Z)
    : prog double :=
  let share := iterations_per_thread num_threads in
  emit (Round p num_threads share) ;;;
  rs <- exec_vector m
          (worker_flops (Z.to_nat num_threads) share
             (elapsed_worker m num_threads) p) ;;
  pret (aggregate rs).

(** A non-positive thread count makes the vector constructor throw or the
    division undefined; the program never passes one. *)
Definition run_multithread_benchmark (m : machine) (num_threads : Z)
    : prog unit :=
  if num_threads <=? 0 then stop Undefined
  else
    total_sp <- run_phase m FP32 num_threads ;;
    total_dp <- run_phase m FP64 num_threads ;;
    emit (Print (nl ++ "多线程测试 (")) ;;;
    emit (PrintInt num_threads) ;;;
    emit (Print (" 线程):" ++ nl)) ;;;
    emit (Print "  单精度 (FP32): ") ;;;
    print_gflops total_sp ;;;
    emit (Print (" GFLOPS" ++ nl)) ;;;
    emit (Print "  双精度 (FP64): ") ;;;
    print_gflops total_dp ;;;
    emit (Print (" GFLOPS" ++ nl)).

Definition banner : list event :=
  [Print ("========================================" ++ nl);
   Print ("   CPU FLOPS 性能测试 (AVX-512 FMA)" ++ nl);
   Print ("========================================" ++ nl ++ nl);
   Print ("测试参数:" ++ nl);
   Print "  迭代次数: "; PrintInt ITERATIONS; Print nl;
   Print "  循环展开: "; PrintInt UNROLL; Print ("x" ++ nl);
   Print ("  AVX-512: 16 x float 或 8 x double" ++ nl);
   Print ("  FMA: 2 FLOPS/操作 (乘+加)" ++ nl ++ nl);
   Print ("单线程测试:" ++ nl)].

Definition main (m : machine) : prog Z :=
  (banner, inr tt) ;;;
  sp_flops <- call_benchmark m FP32 ITERATIONS ;;
  emit (Print "  单精度 (FP32): ") ;;;
  print_gflops sp_flops ;;;
  emit (Print (" GFLOPS" ++ nl)) ;;;
  dp_flops <- call_benchmark m FP64 ITERATIONS ;;
  emit (Print "  双精度 (FP64): ") ;;;
  print_gflops dp_flops ;;;
  emit (Print (" GFLOPS" ++ nl)) ;;;
  emit (Print (nl ++ "硬件线程数: ")) ;;;
  emit (PrintInt (hardware_concurrency m)) ;;;
  emit (Print nl) ;;;
  run_multithread_benchmark m 4 ;;;
  run_multithread_benchmark m 8 ;;;
  run_multithread_benchmark m 16 ;;;
  emit (Print (nl ++ "========================================" ++ nl)) ;;;
  pret 0.

(** The process: [main]'s return value is the exit status. *)
Definition run_program (m : machine) : list event * outcome :=
  match main m with
  | (out, inl o) => (out, o)
  | (out, inr status) => (out, Exit status)
  end.

(** ** Notions used in the proofs *)

(** A positive normal number whose exponent lies in [[lo, hi]]. *)
Definition normal_pos (prec : Z) (x : spec_float) (lo hi : Z) : Prop :=
  exists m e,
    x = S754_finite false m e /\ Z.pos (digits2_pos m) = prec /\ lo <= e <= hi.

(** The FMA recurrence [x * M * 2 ^ (1 - prec) + A * 2 ^ eA] with its
    constants spelled out. *)
Definition fma_step (prec emax : Z) (M A : positive) (eA : Z)
    (x : spec_float) : spec_float :=
  SFfma prec emax x (S754_finite false M (1 - prec)) (S754_finite false A eA).

(** The value of a positive number in units of [2 ^ (- prec)]. *)
Definition potential (prec : Z) (m : positive) (e : Z) : Z :=
  Z.pos m * 2 ^ (e + prec).

(** A normal number of at least one half whose potential is at most [W]. *)
Definition bounded_lane (prec : Z) (x : spec_float) (W : Z) : Prop :=
  exists m e,
    x = S754_finite false m e /\ Z.pos (digits2_pos m) = prec /\
    - prec <= e /\ potential prec m e <= W.

(** The exact sum of a list of integers. *)
Definition Zsum (zs : list Z) : Z := fold_right Z.add 0 zs.

(** The precision of the phase the orchestrator is in. *)
Definition cur_prec (c : pc) : precision :=
  match c with
  | PSpawn p _ | PJoin p _ => p
  | PDone => FP64
  end.

Definition total_of (p : precision) (s : mt_state) : option double :=
  match p with FP32 => total_sp s | FP64 => total_dp s end.

Definition is_running (st : tstatus) : bool :=
  match st with Running => true | _ => false end.

Definition is_joined (st : tstatus) : bool :=
  match st with Joined => true | _ => false end.

Section RoundInvariant.
Variable n_threads : nat.
Variable share : Z.
Variable el : precision -> nat -> double.

(** The throughput worker [i] of phase [p] stores. *)
Definition worker_value (p : precision) (i : nat) : double :=
  throughput (lanes_of p) share (el p i).

(** Every logged event was preceded by what it needs: a store by the
    spawn of its worker and by no other store to its slot nor the sum of
    its vector; a join by the store; a sum by the spawn, store and join
    of every worker; a double-precision spawn by the single-precision
    sum. *)
Fixpoint log_ok (log : list mt_event) : Prop :=
  match log with
  | [] => True
  | e :: older =>
      log_ok older /\
      match e with
      | EvSpawn p i sh =>
          sh = share /\ (i < n_threads)%nat /\
          (p = FP64 -> logged (is_sum FP32) older = true)
      | EvWrite p i slot v =>
          slot = i /\ (i < n_threads)%nat /\
          logged (is_spawn p i) older = true /\
          logged (is_write p i) older = false /\
          logged (is_sum p) older = false
      | EvJoin p j =>
          logged (is_write p j) older = true /\
          logged (is_sum p) older = false
      | EvSum p t =>
          forall i, (i < n_threads)%nat ->
            logged (is_spawn p i) older = true /\
            logged (is_write p i) older = true /\
            logged (is_join p i) older = true
      end
  end.

(** What holds of the thread at position [k] of [threads]. *)
Definition thread_ok (c : pc) (log : list mt_event) (k : nat) (t : thread)
    : Prop :=
  t_prec t = cur_prec c /\ t_id t = k /\ (k < n_threads)%nat /\
  logged (is_spawn (t_prec t) k) log = true /\
  logged (is_write (t_prec t) k) log = negb (is_running (t_status t)) /\
  (t_status t = Joined -> logged (is_join (t_prec t) k) log = true).

Definition pc_ok (c : pc) (ts : list thread) : Prop :=
  match c with
  | PSpawn p i =>
      List.length ts = i /\ (i <= n_threads)%nat /\
      forall k t, ts !! k = Some t -> t_status t <> Joined
  | PJoin p j =>
      List.length ts = n_threads /\ (j <= n_threads)%nat /\
      forall k t, ts !! k = Some t -> (t_status t = Joined <-> (k < j)%nat)
  | PDone =>
      List.length ts = n_threads /\
      forall k t, ts !! k = Some t -> t_status t = Joined
  end.

Definition phase_ok (c : pc) (log : list mt_event) : Prop :=
  match c with
  | PDone => logged (is_sum FP64) log = true
  | _ => logged (is_sum (cur_prec c)) log = false
  end /\
  match cur_prec c with
  | FP32 =>
      logged (is_sum FP64) log = false /\
      forall i, logged (is_write FP64 i) log = false
  | FP64 => logged (is_sum FP32) log = true
  end.

(** The invariant of a multi-thread round. *)
Record round_inv (s : mt_state) : Prop := RoundInv {
  inv_len : forall p, List.length (results_of p s) = n_threads;
  inv_log : log_ok (mt_log s);
  inv_threads :
    forall k t, mt_threads s !! k = Some t ->
                thread_ok (mt_pc s) (mt_log s) k t;
  inv_fresh :
    forall i, (List.length (mt_threads s) <= i)%nat ->
              logged (is_write (cur_prec (mt_pc s)) i) (mt_log s) = false;
  inv_pc : pc_ok (mt_pc s) (mt_threads s);
  inv_phase : phase_ok (mt_pc s) (mt_log s);
  inv_results :
    forall p i, (i < n_threads)%nat ->
      results_of p s !! i =
      Some (if logged (is_write p i) (mt_log s) then worker_value p i
            else S754_zero false);
  inv_totals :
    forall p, logged (is_sum p) (mt_log s) = true ->
      total_of p s = Some (aggregate (results_of p s)) /\
      forall i, (i < n_threads)%nat ->
                logged (is_write p i) (mt_log s) = true
}.

(** The number of scheduler steps a round still takes: for the phase at
hand, the spawns to come and a run for each of their workers, a run for
each running worker, the exit of the spawn loop, the joins and the sum;
and all of the double-precision phase while in the single-precision one. *)
Definition running_count (ts : list thread) : nat :=
  List.length (List.filter (fun t => is_running (t_status t)) ts).

Definition steps_left (s : mt_state) : nat :=
  let r := running_count (mt_threads s) in
  match mt_pc s with
  | PSpawn FP32 i => 2 * (n_threads - i) + r + n_threads + 2 + (3 * n_threads + 2)
  | PJoin FP32 j => r + (n_threads - j) + 1 + (3 * n_threads + 2)
  | PSpawn FP64 i => 2 * (n_threads - i) + r + n_threads + 2
  | PJoin FP64 j => r + (n_threads - j) + 1
  | PDone => r
  end.

(** A total is unset until its vector has been summed. *)
Definition totals_fresh (s : mt_state) : Prop :=
  forall p, logged (is_sum p) (mt_log s) = false -> total_of p s = None.
End RoundInvariant.

(** ** The report, as the specification lays it out *)

Definition gflops_line (label : string) (x : double) : list event :=
  [Print label; PrintFixed 2 (Ddiv x (D_of_Z 1000000000));
   Print (" GFLOPS" ++ nl)].

(** The sum of the throughputs of the [num_threads] workers of one
    precision, each running [ITERATIONS / num_threads] iterations. *)
Definition round_total (m : machine) (num_threads : Z) (p : precision)
    : double :=
  aggregate
    (List.map
       (fun i => throughput (lanes_of p) (ITERATIONS / num_threads)
                            (elapsed_worker m num_threads p i))
       (seq 0 (Z.to_nat num_threads))).

(** One multi-thread round: the single-precision phase, the
    double-precision phase, then the three lines of the round. *)
Definition round_report (m : machine) (num_threads : Z) : list event :=
  [Round FP32 num_threads (ITERATIONS / num_threads);
   Round FP64 num_threads (ITERATIONS / num_threads);
   Print (nl ++ "多线程测试 ("); PrintInt num_threads;
   Print (" 线程):" ++ nl)] ++
  gflops_line "  单精度 (FP32): " (round_total m num_threads FP32) ++
  gflops_line "  双精度 (FP64): " (round_total m num_threads FP64).

(** The whole session: banner, the two single-thread measurements with the
    full budget, the hardware thread count, the rounds with 4, 8 and 16
    workers, the closing rule. *)
Definition expected_report (m : machine) : list event :=
  banner ++
  [Measure FP32 ITERATIONS] ++
  gflops_line "  单精度 (FP32): "
    (throughput 16 ITERATIONS (elapsed_single m FP32)) ++
  [Measure FP64 ITERATIONS] ++
  gflops_line "  双精度 (FP64): "
    (throughput 8 ITERATIONS (elapsed_single m FP64)) ++
  [Print (nl ++ "硬件线程数: "); PrintInt (hardware_concurrency m); Print nl] ++
  round_report m 4 ++ round_report m 8 ++ round_report m 16 ++
  [Print (nl ++ "========================================" ++ nl)].

(** ** Sample inputs *)

(** A machine that reports eight hardware threads and measures one second
    for every benchmark call. *)
Definition sample_machine (has_avx512f : bool) : machine :=
  {| avx512f := has_avx512f;
     hardware_concurrency := 8;
     elapsed_single := fun _ => D_of_Z 1;
     elapsed_worker := fun _ _ _ => D_of_Z 1 |}.

(** Throughputs of four single-precision workers that run 25000000
    iterations each in the given numbers of milliseconds. *)
Definition sample_results (millis : list Z) : list double :=
  List.map (fun k => throughput 16 25000000 (literal Dprec Demax k 1000)) millis.
(** * Verification *)

(** Decide a closed comparison of integers by evaluation. *)
Ltac zcmp := vm_compute; first [reflexivity | discriminate | intro; discriminate].

(** ** Shifting, digits and rounding of [spec_float] *)

Lemma iter_pos_nat {A} (f : A -> A) (p : positive) (x : A) :
  iter_pos f p x = Nat.iter (Pos.to_nat p) f x.
Proof.
  revert x; induction p as [p IH|p IH|]; intro x; cbn [iter_pos].
  - rewrite !IH, Pos2Nat.inj_xI. 
    replace (S (2 * Pos.to_nat p))%nat with (Pos.to_nat p + S (Pos.to_nat p))%nat by lia.
    rewrite Nat.iter_add. f_equal. now rewrite Nat.iter_succ_r.
  - rewrite !IH, Pos2Nat.inj_xO.
    replace (2 * Pos.to_nat p)%nat with (Pos.to_nat p + Pos.to_nat p)%nat by lia.
    now rewrite Nat.iter_add.
  - reflexivity.
Qed.

Lemma shr_1_nonneg m r s : 0 <= m ->
  shr_1 {| shr_m := m; shr_r := r; shr_s := s |} =
  {| shr_m := m / 2; shr_r := Z.odd m; shr_s := r || s |}.
Proof.
  intro Hm. destruct m as [|p|p]; [reflexivity| |lia].
  destruct p as [p|p|]; [| |reflexivity].
  - assert (E : Z.pos p~1 / 2 = Z.pos p)
      by (symmetry; apply Z.div_unique with 1; lia).
    rewrite E. reflexivity.
  - assert (E : Z.pos p~0 / 2 = Z.pos p)
      by (symmetry; apply Z.div_unique with 0; lia).
    rewrite E. reflexivity.
Qed.

Lemma shr_iter_spec (k : nat) (m : Z) : 0 <= m ->
  exists r s,
    Nat.iter (S k) shr_1 {| shr_m := m; shr_r := false; shr_s := false |} =
    {| shr_m := m / 2 ^ Z.of_nat (S k); shr_r := r; shr_s := s |} /\
    (m mod 2 ^ Z.of_nat (S k) = 0 -> r = false /\ s = false).
Proof.
  intro Hm. induction k as [|k IH].
  - rewrite Nat.iter_succ. cbn [Nat.iter nat_rect]. rewrite shr_1_nonneg by assumption.
    exists (Z.odd m), false. split; [reflexivity|].
    change (2 ^ Z.of_nat 1) with 2. intro H. split; [|reflexivity].
    rewrite Zodd_mod, H. reflexivity.
  - destruct IH as (r & s & E & Hex).
    rewrite Nat.iter_succ, E.
    assert (Hq : 0 <= m / 2 ^ Z.of_nat (S k)) by (apply Z.div_pos; lia).
    rewrite shr_1_nonneg by assumption.
    exists (Z.odd (m / 2 ^ Z.of_nat (S k))), (r || s). split.
    + f_equal. rewrite Z.div_div by lia. f_equal.
      rewrite (Nat2Z.inj_succ (S k)), Z.pow_succ_r by lia. lia.
    + intro H.
      rewrite (Nat2Z.inj_succ (S k)), Z.pow_succ_r in H by lia.
      assert (H2 : 0 < 2 ^ Z.of_nat (S k)) by lia.
      set (t := 2 ^ Z.of_nat (S k)) in *.
      assert (Hm2 : m = 2 * t * (m / (2 * t))).
      { pose proof (Z.div_mod m (2 * t)). lia. }
      assert (Hmt : m mod t = 0).
      { rewrite Hm2. rewrite (Z.mul_comm 2 t), <- Z.mul_assoc, Z.mul_comm. apply Z.mod_mul. lia. }
      destruct (Hex Hmt) as [-> ->]. split; [|reflexivity].
      assert (m / t = 2 * (m / (2 * t))).
      { rewrite Hm2 at 1. rewrite (Z.mul_comm 2 t), <- Z.mul_assoc, Z.mul_comm, Z.div_mul by lia. reflexivity. }
      rewrite H0. rewrite Z.odd_mul. reflexivity.
Qed.

Lemma digits2_bounds (p : positive) :
  2 ^ (Z.pos (digits2_pos p) - 1) <= Z.pos p < 2 ^ Z.pos (digits2_pos p).
Proof.
  induction p as [p IH|p IH|]; cbn [digits2_pos]; [| |simpl; lia];
    rewrite Pos2Z.inj_succ;
    replace (Z.succ (Z.pos (digits2_pos p)) - 1)
      with (Z.succ (Z.pos (digits2_pos p) - 1)) by lia;
    rewrite !Z.pow_succ_r by lia; lia.
Qed.

Lemma digits2_unique (p : positive) (d : Z) :
  2 ^ (d - 1) <= Z.pos p < 2 ^ d -> Z.pos (digits2_pos p) = d.
Proof.
  intros [H1 H2]. pose proof (digits2_bounds p) as [H3 H4].
  assert (0 < d). { destruct (Z_lt_le_dec 0 d); auto. assert (2 ^ d <= 2 ^ 0) by (destruct (Z_lt_le_dec d 0); [rewrite Z.pow_neg_r; simpl; lia| apply Z.pow_le_mono_r; lia]). simpl in H; lia. }
  destruct (Z.lt_trichotomy (Z.pos (digits2_pos p)) d) as [L|[E|G]]; [|exact E|].
  - assert (2 ^ Z.pos (digits2_pos p) <= 2 ^ (d - 1)) by (apply Z.pow_le_mono_r; lia). lia.
  - assert (2 ^ d <= 2 ^ (Z.pos (digits2_pos p) - 1)) by (apply Z.pow_le_mono_r; lia). lia.
Qed.

Lemma digits2_pos_pos (p : positive) : 0 < Z.pos (digits2_pos p).
Proof. lia. Qed.

Lemma digits2_lower (p : positive) (k : Z) :
  2 ^ k <= Z.pos p -> k + 1 <= Z.pos (digits2_pos p).
Proof.
  intro H. pose proof (digits2_bounds p) as [_ H2].
  destruct (Z_lt_le_dec k (Z.pos (digits2_pos p))) as [|Hge]; [lia|].
  assert (2 ^ Z.pos (digits2_pos p) <= 2 ^ k) by (apply Z.pow_le_mono_r; lia). lia.
Qed.

Lemma digits2_upper (p : positive) (k : Z) :
  0 <= k -> Z.pos p < 2 ^ k -> Z.pos (digits2_pos p) <= k.
Proof.
  intros Hk H. pose proof (digits2_bounds p) as [H1 _].
  destruct (Z_lt_le_dec k (Z.pos (digits2_pos p))) as [Hlt|]; [|lia].
  assert (2 ^ k <= 2 ^ (Z.pos (digits2_pos p) - 1)) by (apply Z.pow_le_mono_r; lia). lia.
Qed.

Lemma digits2_shift (K N : positive) (j : Z) :
  0 <= j -> Z.pos N = Z.pos K * 2 ^ j ->
  Z.pos (digits2_pos N) = Z.pos (digits2_pos K) + j.
Proof.
  intros Hj HN. pose proof (digits2_bounds K) as [H1 H2].
  assert (0 < 2 ^ j) by (apply Z.pow_pos_nonneg; lia).
  apply digits2_unique. rewrite HN.
  replace (Z.pos (digits2_pos K) + j - 1) with (Z.pos (digits2_pos K) - 1 + j) by lia.
  rewrite !Z.pow_add_r by lia. nia.
Qed.

Lemma shl_align_spec (m : positive) (e e' : Z) :
  e' <= e ->
  exists m', shl_align m e e' = (m', e') /\ Z.pos m' = Z.pos m * 2 ^ (e - e').
Proof.
  intro H. unfold shl_align. destruct (e' - e) as [|d|d] eqn:Ed; try lia.
  - exists m. replace e' with e by lia. rewrite Z.sub_diag, Z.pow_0_r. split; [reflexivity|lia].
  - exists (Pos.iter xO m d). split; [reflexivity|].
    fold (shift_pos d m). rewrite shift_pos_correct, Z.pow_pos_fold.
    replace (e - e') with (Z.pos d) by lia. lia.
Qed.

Lemma shl_align_noop (m : positive) (e e' : Z) :
  e <= e' -> shl_align m e e' = (m, e).
Proof. intro H. unfold shl_align. destruct (e' - e) eqn:Ed; try reflexivity; lia. Qed.

Lemma round_nearest_even_bounds (q : Z) (r s : bool) :
  let m1 := round_nearest_even q
              (loc_of_shr_record {| shr_m := q; shr_r := r; shr_s := s |}) in
  q <= m1 <= q + 1 /\ (r = false -> m1 = q).
Proof.
  destruct r, s; cbn; try destruct (Z.even q); split; try lia; try discriminate; auto.
Qed.

Lemma shr_iter_nonneg (k : nat) (mrs : shr_record) :
  0 <= shr_m mrs -> 0 <= shr_m (Nat.iter k shr_1 mrs).
Proof.
  intro H. induction k as [|k IH]; [exact H|].
  rewrite Nat.iter_succ. destruct (Nat.iter k shr_1 mrs) as [m r s].
  cbn [shr_m] in IH. rewrite shr_1_nonneg by assumption. cbn [shr_m].
  apply Z.div_pos; lia.
Qed.

Lemma shr_nonneg (mrs : shr_record) (e n : Z) :
  0 <= shr_m mrs -> 0 <= shr_m (fst (shr mrs e n)).
Proof.
  intro H. destruct n; cbn [shr fst]; try assumption.
  rewrite iter_pos_nat. now apply shr_iter_nonneg.
Qed.

Lemma round_nearest_even_nonneg (m : Z) (l : location) :
  0 <= m -> 0 <= round_nearest_even m l.
Proof. intro H. destruct l as [|[| |]]; cbn; try destruct (Z.even m); lia. Qed.


Section Rounding.
Variables prec emax : Z.
Hypothesis Hprec : 1 < prec.
Hypothesis Hemax : prec < emax.
Local Set Default Proof Using "Hprec Hemax".

Lemma shr_exact_spec (m n : Z) (e : Z) : 0 <= m -> 0 <= n ->
exists r s,
  shr {| shr_m := m; shr_r := false; shr_s := false |} e n =
  ({| shr_m := m / 2 ^ n; shr_r := r; shr_s := s |}, e + n) /\
  (m mod 2 ^ n = 0 -> r = false /\ s = false).
Proof.
intros Hm Hn. destruct n as [|p|p]; [| |lia].
- exists false, false. cbn [shr]. rewrite Z.pow_0_r, Z.div_1_r, Z.add_0_r. auto.
- cbn [shr]. rewrite iter_pos_nat.
  destruct (Pos2Nat.is_succ p) as [k Hk].
  destruct (shr_iter_spec k m Hm) as (r & s & E & Hex).
  rewrite <- Hk in E, Hex. rewrite positive_nat_Z in E, Hex.
  exists r, s. rewrite E. auto.
Qed.

Lemma fexp_normal (x : Z) : emin prec emax <= x - prec -> fexp prec emax x = x - prec.
Proof. intro H. unfold fexp. lia. Qed.

Lemma binary_round_aux_normal (s : bool) (N : positive) (E : Z) :
let d := Z.pos (digits2_pos N) in
let n := d - prec in
0 <= n ->
emin prec emax <= E + n ->
E + n + 1 <= emax - prec ->
exists M' E',
  binary_round_aux prec emax s (Z.pos N) E loc_Exact = S754_finite s M' E' /\
  Z.pos (digits2_pos M') = prec /\
  E + n <= E' <= E + n + 1 /\
  Z.pos N / 2 ^ n * 2 ^ n <= Z.pos M' * 2 ^ (E' - E) <= (Z.pos N / 2 ^ n + 1) * 2 ^ n /\
  (Z.pos N mod 2 ^ n = 0 -> Z.pos M' = Z.pos N / 2 ^ n /\ E' = E + n).
Proof.
intros d n Hn Hlo Hhi.
pose proof (digits2_bounds N) as HN. fold d in HN.
assert (Hd : d = n + prec) by (unfold n; lia).
set (q := Z.pos N / 2 ^ n).
assert (H2n : 0 < 2 ^ n) by (apply Z.pow_pos_nonneg; lia).
assert (Hq : 2 ^ (prec - 1) <= q < 2 ^ prec).
{ unfold q. split.
  - apply Z.div_le_lower_bound; [lia|]. rewrite <- Z.pow_add_r by lia.
    replace (n + (prec - 1)) with (d - 1) by lia. lia.
  - apply Z.div_lt_upper_bound; [lia|]. rewrite <- Z.pow_add_r by lia.
    replace (n + prec) with d by lia. lia. }
unfold binary_round_aux, shr_fexp. cbn [Zdigits2 shr_record_of_loc]. fold d.
rewrite fexp_normal by lia.
replace (d + E - prec - E) with n by lia.
destruct (shr_exact_spec (Z.pos N) n E ltac:(lia) Hn) as (r & st & -> & Hex).
fold q in Hex |- *. cbn [shr_m].
pose proof (round_nearest_even_bounds q r st) as [Hm1 Hm1x].
set (m1 := round_nearest_even q _) in *.
assert (Hp2 : 2 ^ prec = 2 * 2 ^ (prec - 1)).
{ replace prec with (Z.succ (prec - 1)) at 1 by lia. apply Z.pow_succ_r. lia. }
assert (Hm1pos : 0 < m1) by lia.
destruct m1 as [|M1|M1] eqn:EM1; try lia.
destruct (Z_lt_le_dec (Z.pos M1) (2 ^ prec)) as [Hlt|Hge].
- (* no carry *)
  assert (HdM : Z.pos (digits2_pos M1) = prec) by (apply digits2_unique; lia).
  cbn [Zdigits2]. rewrite HdM, fexp_normal by lia.
  replace (prec + (E + n) - prec - (E + n)) with 0 by lia.
  cbn [shr shr_m].
  replace (E + n <=? emax - prec) with true by (symmetry; apply Z.leb_le; lia).
  exists M1, (E + n). split; [reflexivity|]. split; [exact HdM|]. split; [lia|].
  replace (E + n - E) with n by lia. split; [nia|].
  intro H0. destruct (Hex H0) as [-> _]. split; [apply Hm1x; reflexivity|reflexivity].
- (* carry: the rounded mantissa is 2 ^ prec *)
  assert (HM1 : Z.pos M1 = 2 ^ prec) by lia.
  assert (HdM : Z.pos (digits2_pos M1) = prec + 1).
  { apply digits2_unique. replace (prec + 1 - 1) with prec by lia.
    rewrite Z.pow_add_r by lia. lia. }
  cbn [Zdigits2]. rewrite HdM, fexp_normal by lia.
  replace (prec + 1 + (E + n) - prec - (E + n)) with 1 by lia.
  destruct (shr_exact_spec (Z.pos M1) 1 (E + n) ltac:(lia) ltac:(lia)) as (r' & s' & -> & _).
  cbn [shr_m]. rewrite HM1, Z.pow_1_r, Hp2, Z.mul_comm, Z.div_mul by lia.
  assert (Hpp : 0 < 2 ^ (prec - 1)) by (apply Z.pow_pos_nonneg; lia).
  destruct (2 ^ (prec - 1)) as [|Mh|Mh] eqn:EMh; try lia.
  replace (E + n + 1 <=? emax - prec) with true by (symmetry; apply Z.leb_le; lia).
  exists Mh, (E + n + 1). split; [reflexivity|]. split.
  { apply digits2_unique. rewrite <- EMh. lia. }
  split; [lia|].
  replace (E + n + 1 - E) with (n + 1) by lia.
  rewrite Z.pow_add_r, Z.pow_1_r by lia. split; [nia|].
  intro H0. destruct (Hex H0) as [-> _]. specialize (Hm1x eq_refl). lia.
Qed.
Lemma binary_round_aux_canon (s : bool) (K N : positive) (j e : Z) :
let dk := Z.pos (digits2_pos K) in
0 <= j -> Z.pos N = Z.pos K * 2 ^ j ->
dk <= prec <= dk + j ->
emin prec emax <= e + dk - prec ->
e + dk - prec + 1 <= emax - prec ->
binary_round_aux prec emax s (Z.pos N) (e - j) loc_Exact = canon prec s K e.
Proof.
intros dk Hj HN Hdk Hlo Hhi.
pose proof (digits2_shift K N j Hj HN) as HdN. fold dk in HdN.
destruct (binary_round_aux_normal s N (e - j))
  as (M' & E' & -> & _ & _ & _ & Hex); try (rewrite HdN; lia).
rewrite HdN in Hex.
set (n := dk + j - prec) in *.
assert (Hsplit : 2 ^ j = 2 ^ (prec - dk) * 2 ^ n).
{ rewrite <- Z.pow_add_r by lia. f_equal. lia. }
assert (H2n : 0 < 2 ^ n) by (apply Z.pow_pos_nonneg; lia).
assert (Hmod : Z.pos N mod 2 ^ n = 0).
{ rewrite HN, Hsplit, Z.mul_assoc. apply Z.mod_mul. lia. }
destruct (Hex Hmod) as [HM HE].
unfold canon. fold dk. f_equal.
- apply Pos2Z.inj. rewrite HM, HN, Hsplit, Z.mul_assoc, Z.div_mul by lia.
  rewrite Z2Pos.id; [reflexivity|].
  apply Z.mul_pos_pos; [lia|apply Z.pow_pos_nonneg; lia].
- lia.
Qed.

Lemma binary_round_canon (s : bool) (K N : positive) (j e : Z) :
let dk := Z.pos (digits2_pos K) in
0 <= j -> Z.pos N = Z.pos K * 2 ^ j ->
dk <= prec ->
emin prec emax <= e + dk - prec ->
e + dk - prec + 1 <= emax - prec ->
binary_round prec emax s N (e - j) = canon prec s K e.
Proof.
intros dk Hj HN Hdk Hlo Hhi.
pose proof (digits2_shift K N j Hj HN) as HdN. fold dk in HdN.
unfold binary_round. rewrite HdN, fexp_normal by lia.
destruct (Z_lt_le_dec (dk + j) prec) as [Hsmall|Hbig].
- destruct (shl_align_spec N (e - j) (dk + j + (e - j) - prec) ltac:(lia))
    as (m' & -> & Hm').
  replace (e - j - (dk + j + (e - j) - prec)) with (prec - dk - j) in Hm' by lia.
  replace (dk + j + (e - j) - prec) with (e - (prec - dk)) by lia.
  apply binary_round_aux_canon; try lia.
  rewrite Hm', HN, <- Z.mul_assoc, <- Z.pow_add_r by lia. do 2 f_equal. lia.
- rewrite shl_align_noop by lia.
  apply binary_round_aux_canon; lia.
Qed.

Lemma canon_scale (s : bool) (K N : positive) (j e : Z) :
0 <= j -> Z.pos N = Z.pos K * 2 ^ j ->
Z.pos (digits2_pos K) + j <= prec ->
canon prec s N (e - j) = canon prec s K e.
Proof.
intros Hj HN Hd. pose proof (digits2_shift K N j Hj HN) as HdN.
unfold canon. rewrite HdN. f_equal; [|lia].
f_equal. rewrite HN, <- Z.mul_assoc, <- Z.pow_add_r by lia. do 2 f_equal. lia.
Qed.
Lemma canon_mantissa (s : bool) (K : positive) (e : Z) :
Z.pos (digits2_pos K) <= prec ->
exists M, canon prec s K e = S754_finite s M (e + Z.pos (digits2_pos K) - prec) /\
          Z.pos M = Z.pos K * 2 ^ (prec - Z.pos (digits2_pos K)) /\
          Z.pos (digits2_pos M) = prec.
Proof.
intro Hd. unfold canon. eexists. split; [reflexivity|].
assert (0 < 2 ^ (prec - Z.pos (digits2_pos K))) by (apply Z.pow_pos_nonneg; lia).
assert (HM : Z.pos (Z.to_pos (Z.pos K * 2 ^ (prec - Z.pos (digits2_pos K)))) =
        Z.pos K * 2 ^ (prec - Z.pos (digits2_pos K)))
  by (rewrite Z2Pos.id; [reflexivity|apply Z.mul_pos_pos; lia]).
split; [exact HM|].
rewrite (digits2_shift K _ (prec - Z.pos (digits2_pos K)) ltac:(lia) HM). lia.
Qed.

(** Integers of at most [prec] bits convert exactly. *)
Lemma of_Z_canon (K : positive) (j : Z) (N : positive) :
0 <= j -> Z.pos N = Z.pos K * 2 ^ j ->
Z.pos (digits2_pos K) <= prec ->
j + Z.pos (digits2_pos K) + 1 <= emax ->
of_Z prec emax (Z.pos N) = canon prec false K j.
Proof.
intros Hj HN Hd Hr. unfold of_Z, binary_normalize.
replace 0 with (j - j) by lia.
apply binary_round_canon; try assumption; unfold emin; lia.
Qed.

(** The product of two canonical numbers is exact when it fits. *)
Lemma SFmul_canon (s1 s2 : bool) (K1 K2 : positive) (e1 e2 : Z) :
Z.pos (digits2_pos (K1 * K2)) <= prec ->
emin prec emax <= e1 + e2 + Z.pos (digits2_pos (K1 * K2)) - prec ->
e1 + e2 + Z.pos (digits2_pos (K1 * K2)) + 1 <= emax ->
SFmul prec emax (canon prec s1 K1 e1) (canon prec s2 K2 e2) =
canon prec (xorb s1 s2) (K1 * K2) (e1 + e2).
Proof.
intros Hd Hlo Hhi.
pose proof (digits2_bounds K1) as B1. pose proof (digits2_bounds K2) as B2.
set (d1 := Z.pos (digits2_pos K1)) in *. set (d2 := Z.pos (digits2_pos K2)) in *.
assert (Hd12 : d1 + d2 - 1 <= Z.pos (digits2_pos (K1 * K2))).
{ replace (d1 + d2 - 1) with ((d1 - 1) + (d2 - 1) + 1) by lia.
  apply digits2_lower. rewrite Pos2Z.inj_mul.
  rewrite Z.pow_add_r by lia.
  apply Z.mul_le_mono_nonneg; try lia; apply Z.pow_nonneg; lia. }
assert (Hd1 : d1 <= prec) by lia. assert (Hd2 : d2 <= prec) by lia.
destruct (canon_mantissa s1 K1 e1 Hd1) as (M1 & -> & HM1 & _).
destruct (canon_mantissa s2 K2 e2 Hd2) as (M2 & -> & HM2 & _).
fold d1 in HM1 |- *. fold d2 in HM2 |- *.
cbn [SFmul].
replace (e1 + d1 - prec + (e2 + d2 - prec))
  with (e1 + e2 - (2 * prec - d1 - d2)) by lia.
apply binary_round_aux_canon; try assumption; try lia.
rewrite !Pos2Z.inj_mul, HM1, HM2.
replace (2 * prec - d1 - d2) with ((prec - d1) + (prec - d2)) by lia.
rewrite Z.pow_add_r by lia. ring.
Qed.
Lemma binary_round_normal_pos (N : positive) (E : Z) :
let d := Z.pos (digits2_pos N) in
emin prec emax <= E + d - prec ->
E + d + 1 <= emax ->
normal_pos prec (binary_round prec emax false N E) (E + d - prec) (E + d - prec + 1).
Proof.
intros d Hlo Hhi. unfold binary_round. fold d.
rewrite fexp_normal by lia.
destruct (Z_lt_le_dec d prec) as [Hsmall|Hbig].
- destruct (shl_align_spec N E (d + E - prec) ltac:(lia)) as (m' & -> & Hm').
  pose proof (digits2_shift N m' (E - (d + E - prec)) ltac:(lia) Hm') as Hdm. fold d in Hdm.
  destruct (binary_round_aux_normal false m' (d + E - prec))
    as (M' & E' & -> & HdM & HE & _); try (rewrite Hdm; lia).
  exists M', E'. rewrite Hdm in HE. repeat split; try assumption; lia.
- rewrite shl_align_noop by lia.
  destruct (binary_round_aux_normal false N E)
    as (M' & E' & -> & HdM & HE & _); fold d; try lia.
  exists M', E'. fold d in HE. repeat split; try assumption; lia.
Qed.

Lemma of_Z_normal_pos (z : Z) (k : Z) :
0 < z < 2 ^ k -> 0 <= k -> k + 1 <= emax ->
normal_pos prec (of_Z prec emax z) (1 - prec) (k - prec + 1).
Proof.
intros Hz Hk Hkm. destruct z as [|N|N]; try lia.
pose proof (digits2_upper N k Hk ltac:(lia)) as Hd.
pose proof (digits2_pos_pos N) as Hd0.
destruct (binary_round_normal_pos N 0) as (m & e & E & Hm & He);
  try (unfold emin; lia).
exists m, e. split; [exact E|]. split; [exact Hm|]. lia.
Qed.

Lemma SFmul_normal_pos (x y : spec_float) (l1 h1 l2 h2 : Z) :
normal_pos prec x l1 h1 -> normal_pos prec y l2 h2 ->
emin prec emax <= l1 + l2 + prec - 1 ->
h1 + h2 + 2 * prec + 1 <= emax ->
normal_pos prec (SFmul prec emax x y) (l1 + l2 + prec - 1) (h1 + h2 + prec + 1).
Proof.
intros (m1 & e1 & -> & Hm1 & He1) (m2 & e2 & -> & Hm2 & He2) Hlo Hhi.
cbn [SFmul xorb].
pose proof (digits2_bounds m1) as B1. pose proof (digits2_bounds m2) as B2.
rewrite Hm1 in B1. rewrite Hm2 in B2.
assert (Hp : 0 < 2 ^ (prec - 1)) by (apply Z.pow_pos_nonneg; lia).
assert (Hp2 : 2 ^ prec = 2 * 2 ^ (prec - 1)).
{ replace prec with (Z.succ (prec - 1)) at 1 by lia. apply Z.pow_succ_r. lia. }
assert (Hd : 2 * prec - 1 <= Z.pos (digits2_pos (m1 * m2)) <= 2 * prec).
{ split.
  - replace (2 * prec - 1) with ((prec - 1) + (prec - 1) + 1) by lia.
    apply digits2_lower. rewrite Pos2Z.inj_mul, Z.pow_add_r by lia. nia.
  - apply digits2_upper; [lia|]. rewrite Pos2Z.inj_mul.
    replace (2 * prec) with (prec + prec) by lia. rewrite Z.pow_add_r by lia. nia. }
destruct (binary_round_aux_normal false (m1 * m2) (e1 + e2))
  as (M' & E' & -> & HdM & HE & _); try lia.
exists M', E'. repeat split; try assumption; lia.
Qed.
Lemma shr_fexp_nonneg (m e : Z) (l : location) :
0 <= m -> 0 <= shr_m (fst (shr_fexp prec emax m e l)).
Proof.
intro H. unfold shr_fexp. apply shr_nonneg.
destruct l as [|[| |]]; exact H.
Qed.

(** Rounding keeps the sign and never produces a NaN. *)
Lemma binary_round_aux_sign (s : bool) (m e : Z) (l : location) :
0 <= m -> sign_of (binary_round_aux prec emax s m e l) = Some s.
Proof.
intro H. unfold binary_round_aux.
pose proof (shr_fexp_nonneg m e l H) as H1.
destruct (shr_fexp prec emax m e l) as [mrs' e'] eqn:E1. cbn [fst] in H1.
pose proof (shr_fexp_nonneg
              (round_nearest_even (shr_m mrs') (loc_of_shr_record mrs')) e' loc_Exact
              (round_nearest_even_nonneg _ _ H1)) as H2.
destruct (shr_fexp prec emax _ e' loc_Exact) as [mrs'' e''] eqn:E2. cbn [fst] in H2.
destruct (shr_m mrs'') as [|p|p]; [reflexivity| |lia].
destruct (e'' <=? emax - prec); reflexivity.
Qed.

Lemma SFdiv_core_binary_nonneg (m1 m2 : positive) (e1 e2 : Z) :
0 <= fst (fst (SFdiv_core_binary prec emax (Z.pos m1) e1 (Z.pos m2) e2)).
Proof.
unfold SFdiv_core_binary.
set (sh := _ - _ - Z.min _ _).
set (m' := match sh with Z0 => _ | Z.pos _ => _ | Z.neg _ => _ end).
assert (Hm' : 0 <= m').
{ unfold m'. destruct sh; try lia. apply Z.shiftl_nonneg. lia. }
pose proof (Z_div_mod m' (Z.pos m2) ltac:(lia)) as Hdm.
destruct (Z.div_eucl m' (Z.pos m2)) as [q r]. cbn [fst].
destruct Hdm as [Hq Hr]. nia.
Qed.

(** Dividing a positive number by a negative one gives a result with the
  sign bit set. *)
Lemma SFdiv_pos_neg (m1 m2 : positive) (e1 e2 : Z) :
sign_of (SFdiv prec emax (S754_finite false m1 e1) (S754_finite true m2 e2)) = Some true.
Proof.
cbn [SFdiv xorb].
pose proof (SFdiv_core_binary_nonneg m1 m2 e1 e2) as H.
destruct (SFdiv_core_binary prec emax (Z.pos m1) e1 (Z.pos m2) e2) as [[mz ez] lz].
cbn [fst] in H. now apply binary_round_aux_sign.
Qed.
(** Adding two integers of the format is exact when the sum fits. *)
Lemma SFadd_of_Z (a b : Z) :
0 <= a -> 0 <= b -> a + b < 2 ^ prec ->
SFadd prec emax (of_Z prec emax a) (of_Z prec emax b) = of_Z prec emax (a + b).
Proof.
intros Ha Hb Hab.
destruct a as [|A|A]; [|destruct b as [|B|B]|]; try lia.
- destruct b as [|B|B]; try lia; [reflexivity|].
  destruct (of_Z_normal_pos (Z.pos B) prec)
    as (m & e & E & _); try lia.
  rewrite Z.add_0_l, E. reflexivity.
- rewrite Z.add_0_r.
  destruct (of_Z_normal_pos (Z.pos A) prec)
    as (m & e & -> & _); try lia.
  reflexivity.
- assert (HdA : Z.pos (digits2_pos A) <= prec) by (apply digits2_upper; lia).
  assert (HdB : Z.pos (digits2_pos B) <= prec) by (apply digits2_upper; lia).
  assert (HdAB : Z.pos (digits2_pos (A + B)) <= prec)
    by (apply digits2_upper; [lia|rewrite Pos2Z.inj_add; lia]).
  rewrite (of_Z_canon A 0 A), (of_Z_canon B 0 B);
    try lia.
  change (Z.pos A + Z.pos B) with (Z.pos (A + B)).
  rewrite (of_Z_canon (A + B) 0 (A + B)); try lia.
  destruct (canon_mantissa false A 0 HdA) as (MA & -> & HMA & _).
  destruct (canon_mantissa false B 0 HdB) as (MB & -> & HMB & _).
  set (dA := Z.pos (digits2_pos A)) in *. set (dB := Z.pos (digits2_pos B)) in *.
  cbn [SFadd].
  set (ez := Z.min (0 + dA - prec) (0 + dB - prec)).
  destruct (shl_align_spec MA (0 + dA - prec) ez ltac:(lia)) as (ma & -> & Hma).
  destruct (shl_align_spec MB (0 + dB - prec) ez ltac:(lia)) as (mb & -> & Hmb).
  cbn [fst cond_Zopp Z.add binary_normalize].
  replace ez with (0 - (- ez)) at 1 by lia.
  apply binary_round_canon; try assumption; try lia; [|unfold emin; lia].
  rewrite Pos2Z.inj_add, Hma, Hmb, HMA, HMB, Pos2Z.inj_add.
  rewrite <- !Z.mul_assoc, <- !Z.pow_add_r by lia.
  replace (prec - dA + (0 + dA - prec - ez)) with (- ez) by lia.
  replace (prec - dB + (0 + dB - prec - ez)) with (- ez) by lia. ring.
Qed.
(** The sum of two positive normal numbers is a positive normal number at
  most two binades above the larger one. *)
Lemma SFadd_normal_pos (x y : spec_float) (l h : Z) :
normal_pos prec x l h -> normal_pos prec y l h ->
emin prec emax <= l -> prec + h + 2 <= emax ->
normal_pos prec (SFadd prec emax x y) l (h + 2).
Proof.
intros (m1 & e1 & -> & Hm1 & He1) (m2 & e2 & -> & Hm2 & He2) Hlo Hhi.
cbn [SFadd].
pose proof (digits2_bounds m1) as B1. pose proof (digits2_bounds m2) as B2.
rewrite Hm1 in B1. rewrite Hm2 in B2.
set (ez := Z.min e1 e2).
destruct (shl_align_spec m1 e1 ez ltac:(lia)) as (n1 & -> & Hn1).
destruct (shl_align_spec m2 e2 ez ltac:(lia)) as (n2 & -> & Hn2).
cbn [fst cond_Zopp].
change (Z.pos n1 + Z.pos n2) with (Z.pos (n1 + n2)). cbn [binary_normalize].
set (N := (n1 + n2)%positive).
set (eM := Z.max e1 e2).
assert (Hp : 0 < 2 ^ (prec - 1)) by (apply Z.pow_pos_nonneg; lia).
assert (Hp2 : 2 ^ prec = 2 * 2 ^ (prec - 1)).
{ replace prec with (Z.succ (prec - 1)) at 1 by lia. apply Z.pow_succ_r. lia. }
assert (Hs1 : 0 < 2 ^ (e1 - ez)) by (apply Z.pow_pos_nonneg; lia).
assert (Hs2 : 0 < 2 ^ (e2 - ez)) by (apply Z.pow_pos_nonneg; lia).
assert (Hs1' : 2 ^ (e1 - ez) <= 2 ^ (eM - ez)) by (apply Z.pow_le_mono_r; lia).
assert (Hs2' : 2 ^ (e2 - ez) <= 2 ^ (eM - ez)) by (apply Z.pow_le_mono_r; lia).
assert (HsM : 0 < 2 ^ (eM - ez)) by (apply Z.pow_pos_nonneg; lia).
assert (HN : Z.pos N = Z.pos n1 + Z.pos n2) by reflexivity.
assert (Hlow : 2 ^ (prec - 1) * 2 ^ (eM - ez) <= Z.pos N).
{ rewrite HN, Hn1, Hn2.
  assert (2 ^ (prec - 1) * 2 ^ (e1 - ez) <= Z.pos m1 * 2 ^ (e1 - ez))
    by (apply Z.mul_le_mono_nonneg_r; lia).
  assert (2 ^ (prec - 1) * 2 ^ (e2 - ez) <= Z.pos m2 * 2 ^ (e2 - ez))
    by (apply Z.mul_le_mono_nonneg_r; lia).
  assert (0 < Z.pos m1 * 2 ^ (e1 - ez)) by (apply Z.mul_pos_pos; lia).
  assert (0 < Z.pos m2 * 2 ^ (e2 - ez)) by (apply Z.mul_pos_pos; lia).
  unfold eM. destruct (Z.max_spec e1 e2) as [[_ ->]|[_ ->]]; lia. }
assert (Hupp : Z.pos N < 2 ^ (prec + 1) * 2 ^ (eM - ez)).
{ rewrite HN, Hn1, Hn2, Z.pow_add_r, Z.pow_1_r by lia.
  assert (Z.pos m1 * 2 ^ (e1 - ez) < 2 ^ prec * 2 ^ (e1 - ez))
    by (apply Z.mul_lt_mono_pos_r; lia).
  assert (Z.pos m2 * 2 ^ (e2 - ez) < 2 ^ prec * 2 ^ (e2 - ez))
    by (apply Z.mul_lt_mono_pos_r; lia).
  assert (2 ^ prec * 2 ^ (e1 - ez) <= 2 ^ prec * 2 ^ (eM - ez))
    by (apply Z.mul_le_mono_nonneg_l; lia).
  assert (2 ^ prec * 2 ^ (e2 - ez) <= 2 ^ prec * 2 ^ (eM - ez))
    by (apply Z.mul_le_mono_nonneg_l; lia).
  lia. }
rewrite <- Z.pow_add_r in Hlow, Hupp by lia.
assert (Hd1 : prec + (eM - ez) <= Z.pos (digits2_pos N)).
{ replace (prec + (eM - ez)) with (prec - 1 + (eM - ez) + 1) by lia.
  now apply digits2_lower. }
assert (Hd2 : Z.pos (digits2_pos N) <= prec + 1 + (eM - ez))
  by (apply digits2_upper; [lia|assumption]).
destruct (binary_round_normal_pos N ez) as (m & e & -> & Hm & He); try lia.
exists m, e. split; [reflexivity|]. split; [exact Hm|]. lia.
Qed.
End Rounding.

(** ** The kernel loop *)

Lemma map3_replicate (f : spec_float -> spec_float -> spec_float -> spec_float)
    (n : nat) (x y z : spec_float) :
  map3 f (replicate n x) (replicate n y) (replicate n z) = replicate n (f x y z).
Proof. induction n as [|n IH]; [reflexivity|]. cbn. now rewrite IH. Qed.

Lemma zip_with_replicate_same (f : spec_float -> spec_float -> spec_float)
    (n : nat) (x y : spec_float) :
  zip_with f (replicate n x) (replicate n y) = replicate n (f x y).
Proof. induction n as [|n IH]; [reflexivity|]. cbn. now rewrite IH. Qed.

(** The horizontal sum of a vector of equal lanes doubles the lane once per
    level of the reduction tree. *)
Lemma reduce_add_replicate (add : spec_float -> spec_float -> spec_float)
    (k : nat) (x : spec_float) :
  reduce_add add k (replicate (Nat.pow 2 k) x) =
  Nat.iter k (fun y => add y y) x.
Proof.
  revert x. induction k as [|k IH]; intro x; [reflexivity|].
  cbn [reduce_add].
  rewrite take_replicate, drop_replicate.
  replace (Nat.min (Nat.pow 2 k) (Nat.pow 2 (S k))) with (Nat.pow 2 k)
    by (cbn [Nat.pow]; lia).
  replace (Nat.pow 2 (S k) - Nat.pow 2 k)%nat with (Nat.pow 2 k)
    by (cbn [Nat.pow]; lia).
  rewrite zip_with_replicate_same, IH, Nat.iter_succ_r. reflexivity.
Qed.

Section KernelFacts.
Variables prec emax : Z.
Variable log_lanes : nat.

Lemma kernel_body_after (n : nat) :
  kernel_body prec emax log_lanes (accs_after prec emax log_lanes n) =
  accs_after prec emax log_lanes (S n).
Proof.
  unfold kernel_body, accs_after, fmadd, vmul, vadd, set1. cbn [v0 v1 v2 v3 v4 v5 v6 v7 v8 v9].
  rewrite !map3_replicate. reflexivity.
Qed.

Lemma kernel_body_iter (n : nat) :
  Nat.iter n (kernel_body prec emax log_lanes) (kernel_init prec emax log_lanes) =
  accs_after prec emax log_lanes n.
Proof.
  induction n as [|n IH]; [reflexivity|].
  rewrite Nat.iter_succ, IH. apply kernel_body_after.
Qed.

(** With [k] iterations to go and at least as much fuel, the loop leaves
    through its condition after exactly [k] more steps. *)
Lemma kernel_loop_runs (iterations : Z) (k fuel : nat) (i : Z) (a : accs) :
  (k <= fuel)%nat -> 0 <= i -> i + Z.of_nat k = iterations ->
  iterations < SIZE_MAX1 ->
  kernel_loop prec emax log_lanes fuel i iterations a =
  Some (iterations, Nat.iter k (kernel_body prec emax log_lanes) a).
Proof.
  revert fuel i a. induction k as [|k IH]; intros fuel i a Hf Hi Hk Hn.
  - replace i with iterations by lia.
    destruct fuel; cbn [kernel_loop]; rewrite Z.ltb_irrefl; reflexivity.
  - destruct fuel as [|fuel]; [lia|]. cbn [kernel_loop].
    replace (i <? iterations) with true by (symmetry; apply Z.ltb_lt; lia).
    assert (Hw : to_size_t (i + 1) = i + 1)
      by (unfold to_size_t; apply Z.mod_small; lia).
    rewrite Hw, (IH fuel (i + 1)) by lia.
    rewrite Nat.iter_succ_r. reflexivity.
Qed.

Lemma kernel_runs (iterations : Z) :
  0 <= iterations < SIZE_MAX1 ->
  kernel prec emax log_lanes iterations =
  Some {| k_steps := iterations;
          k_accs := accs_after prec emax log_lanes (Z.to_nat iterations);
          k_sink := kernel_sink prec emax log_lanes
                      (accs_after prec emax log_lanes (Z.to_nat iterations)) |}.
Proof.
  intro H. unfold kernel.
  rewrite (kernel_loop_runs iterations (Z.to_nat iterations)) by lia.
  rewrite kernel_body_iter. reflexivity.
Qed.

Lemma acc_list_after (n : nat) :
  acc_list (accs_after prec emax log_lanes n) =
  List.map (fun s => replicate (Nat.pow 2 log_lanes)
                       (Nat.iter n (lane_step prec emax) s))
           (seeds prec emax).
Proof. reflexivity. Qed.
End KernelFacts.

Lemma benchmark_runs (p : precision) (iterations : Z) (elapsed : double) :
  0 <= iterations < SIZE_MAX1 ->
  exists k,
    kernel (fprec p) (femax p) (log_lanes_of p) iterations = Some k /\
    benchmark p iterations elapsed =
    Some {| b_kernel := k;
            b_flops := throughput (lanes_of p) iterations elapsed |}.
Proof.
  intro H. destruct p; cbn [benchmark fprec femax log_lanes_of lanes_of];
    unfold benchmark_avx512_sp, benchmark_avx512_dp;
    rewrite kernel_runs by assumption; eexists; split; reflexivity.
Qed.

Lemma benchmark_flops (p : precision) (iterations : Z) (elapsed : double) :
  0 <= iterations < SIZE_MAX1 ->
  b_flops <$> benchmark p iterations elapsed =
  Some (throughput (lanes_of p) iterations elapsed).
Proof.
  intro H. destruct (benchmark_runs p iterations elapsed H) as (k & _ & ->).
  reflexivity.
Qed.

(** C5. The kernel of either precision runs its loop body exactly
    [iterations] times: the counter ends at [iterations], and every lane of
    accumulator [k] holds the [k]-th seed after [iterations] updates
    [x := fma (x, 1.0000001, 0.0000001)].  The value stored in the sink is
    the sum, from left to right, of the ten horizontal sums, and the
    horizontal sum of a vector is its reduction tree. *)
Theorem kernel_iterates_and_reduces (p : precision) (iterations : Z) :
  0 <= iterations < SIZE_MAX1 ->
  let prec := fprec p in
  let emax := femax p in
  let update x :=
    SFfma prec emax x (literal prec emax 10000001 10000000)
                      (literal prec emax 1 10000000) in
  exists r,
    kernel prec emax (log_lanes_of p) iterations = Some r /\
    k_steps r = iterations /\
    k_accs r = Nat.iter (Z.to_nat iterations)
                 (kernel_body prec emax (log_lanes_of p))
                 (kernel_init prec emax (log_lanes_of p)) /\
    List.length (acc_list (k_accs r)) = Z.to_nat UNROLL /\
    (forall k v seed,
        acc_list (k_accs r) !! k = Some v ->
        seeds prec emax !! k = Some seed ->
        v = replicate (Z.to_nat (lanes_of p))
              (Nat.iter (Z.to_nat iterations) update seed)) /\
    (forall x,
        vreduce prec emax (log_lanes_of p) (replicate (Z.to_nat (lanes_of p)) x) =
        Nat.iter (log_lanes_of p) (fun y => SFadd prec emax y y) x) /\
    k_sink r =
      fold_left (SFadd prec emax)
        (List.tl (List.map (vreduce prec emax (log_lanes_of p))
                           (acc_list (k_accs r))))
        (vreduce prec emax (log_lanes_of p) (v0 (k_accs r))).
Proof.
  intros H prec emax update.
  eexists. split; [apply kernel_runs; exact H|]. cbn [k_steps k_accs k_sink].
  split; [reflexivity|]. split; [symmetry; apply kernel_body_iter|].
  split; [reflexivity|]. split; [|split].
  - intros k v seed Hv Hs. rewrite acc_list_after in Hv.
    rewrite list_lookup_fmap, Hs in Hv. cbn in Hv.
    injection Hv as <-. destruct p; reflexivity.
  - intro x. unfold vreduce.
    replace (Z.to_nat (lanes_of p)) with (Nat.pow 2 (log_lanes_of p))
      by (destruct p; reflexivity).
    apply reduce_add_replicate.
  - generalize (accs_after prec emax (log_lanes_of p) (Z.to_nat iterations)).
    intro a. unfold kernel_sink, acc_list.
    cbn [List.map List.tl fold_left v0]. reflexivity.
Qed.

Lemma kernel_iterates_and_reduces_witness :
  0 <= 3 < SIZE_MAX1 /\
  exists r, kernel Fprec Femax 4 3 = Some r /\ k_steps r = 3.
Proof.
  split; [split; [lia|reflexivity]|].
  destruct (kernel_iterates_and_reduces FP32 3) as (r & Hr & Hs & _).
  - split; [lia|reflexivity].
  - exists r. split; assumption.
Defined.

(** ** The throughput computation *)

Lemma Dprec_gt_1 : 1 < Dprec.
Proof. reflexivity. Qed.

Lemma Dprec_lt_Demax : Dprec < Demax.
Proof. reflexivity. Qed.

Lemma D_of_Z_lanes (p : precision) :
  D_of_Z (lanes_of p) =
  canon Dprec false 1 (match p with FP32 => 4 | FP64 => 3 end).
Proof. destruct p; reflexivity. Qed.

(** Below 2^53 / 10 iterations every product of the count is exact. *)
Lemma flops_count_exact (p : precision) (n : Z) :
  0 < n -> n * 10 < 2 ^ 53 ->
  flops_count (lanes_of p) n = D_of_Z (n * 10 * lanes_of p * 2).
Proof.
  intros Hn Hs. destruct n as [|P|P]; try lia.
  set (k := match p with FP32 => 4 | FP64 => 3 end).
  assert (Hk : 0 <= k <= 4) by (destruct p; cbn; lia).
  assert (HdP10 : Z.pos (digits2_pos (P * 10)) <= 53)
    by (apply digits2_upper; [lia|rewrite Pos2Z.inj_mul; lia]).
  assert (HdP : Z.pos (digits2_pos P) <= 53) by (apply digits2_upper; lia).
  unfold flops_count, Dmul, D_of_Z, UNROLL.
  rewrite (of_Z_canon Dprec Demax Dprec_gt_1 Dprec_lt_Demax P 0 P);
    [|lia|rewrite Z.pow_0_r; lia|exact HdP|unfold Demax; lia].
  change (of_Z Dprec Demax 10) with (canon Dprec false 10 0).
  rewrite (SFmul_canon Dprec Demax Dprec_gt_1 Dprec_lt_Demax false false P 10 0 0);
    [|exact HdP10|unfold emin, Dprec, Demax in *; lia|unfold Dprec, Demax in *; lia].
  fold D_of_Z. rewrite D_of_Z_lanes. fold k. cbn [xorb].
  assert (Hd1 : Z.pos (digits2_pos (P * 10 * 1)) <= 53)
    by (rewrite Pos.mul_1_r; exact HdP10).
  rewrite (SFmul_canon Dprec Demax Dprec_gt_1 Dprec_lt_Demax false false (P * 10) 1 (0 + 0) k);
    [|exact Hd1|unfold emin, Dprec, Demax in *; lia|unfold Dprec, Demax in *; lia].
  change (D_of_Z 2) with (canon Dprec false 1 1). cbn [xorb].
  assert (Hd2 : Z.pos (digits2_pos (P * 10 * 1 * 1)) <= 53)
    by (rewrite !Pos.mul_1_r; exact HdP10).
  rewrite (SFmul_canon Dprec Demax Dprec_gt_1 Dprec_lt_Demax false false
             (P * 10 * 1) 1 (0 + 0 + k) 1);
    [|exact Hd2|unfold emin, Dprec, Demax in *; lia|unfold Dprec, Demax in *; lia].
  cbn [xorb].
  assert (Hprod : exists N, Z.pos P * 10 * lanes_of p * 2 = Z.pos N /\
                            Z.pos N = Z.pos (P * 10 * 1 * 1) * 2 ^ (0 + 0 + k + 1)).
  { unfold k. destruct p; cbn [lanes_of]; eexists; (split; [reflexivity|]);
      rewrite !Pos.mul_1_r, !Pos2Z.inj_mul; change (2 ^ (0 + 0 + 4 + 1)) with 32;
      change (2 ^ (0 + 0 + 3 + 1)) with 16; lia. }
  destruct Hprod as (N & -> & HN).
  symmetry. apply (of_Z_canon Dprec Demax Dprec_gt_1 Dprec_lt_Demax _ _ N);
    [lia|exact HN|exact Hd2|unfold Dprec, Demax in *; lia].
Qed.

(** The operation count is a positive normal number for every [size_t]
    iteration count but zero. *)
Lemma flops_count_normal (p : precision) (n : Z) :
  0 < n < SIZE_MAX1 ->
  normal_pos Dprec (flops_count (lanes_of p) n) (-45) 26.
Proof.
  intro Hn. unfold flops_count, Dmul, D_of_Z, UNROLL.
  pose proof (of_Z_normal_pos Dprec Demax Dprec_gt_1 Dprec_lt_Demax n 64 Hn
                ltac:(lia) ltac:(unfold Demax; lia)) as H0.
  assert (H10 : normal_pos Dprec (of_Z Dprec Demax 10) (-49) (-49))
    by (eexists _, _; split; [vm_compute; reflexivity|split; [reflexivity|split; zcmp]]).
  assert (Hl : normal_pos Dprec (of_Z Dprec Demax (lanes_of p)) (-49) (-48))
    by (destruct p; (eexists _, _; split; [vm_compute; reflexivity|split; [reflexivity|split; zcmp]])).
  assert (H2 : normal_pos Dprec (of_Z Dprec Demax 2) (-51) (-51))
    by (eexists _, _; split; [vm_compute; reflexivity|split; [reflexivity|split; zcmp]]).
  pose proof (SFmul_normal_pos Dprec Demax Dprec_gt_1 Dprec_lt_Demax _ _ _ _ _ _ H0 H10
                ltac:(unfold emin, Dprec, Demax; lia) ltac:(unfold Dprec, Demax; lia)) as H1.
  pose proof (SFmul_normal_pos Dprec Demax Dprec_gt_1 Dprec_lt_Demax _ _ _ _ _ _ H1 Hl
                ltac:(unfold emin, Dprec, Demax; lia) ltac:(unfold Dprec, Demax; lia)) as H3.
  pose proof (SFmul_normal_pos Dprec Demax Dprec_gt_1 Dprec_lt_Demax _ _ _ _ _ _ H3 H2
                ltac:(unfold emin, Dprec, Demax; lia) ltac:(unfold Dprec, Demax; lia)) as H4.
  destruct H4 as (m & e & E & Hm & He). exists m, e.
  split; [exact E|]. split; [exact Hm|]. unfold Dprec in He. lia.
Qed.

(** The scenario of the specification: 1000 single-precision iterations in
    0.0001 seconds are 3.2 giga-operations per second. *)
Example throughput_scenario :
  throughput 16 1000 (literal Dprec Demax 1 10000) = D_of_Z 3200000000.
Proof. vm_compute. reflexivity. Qed.

(** C1 (counterexample). With 2^53 + 1 iterations and one second elapsed,
    the single-precision benchmark returns 320 * 2^53, which is not the
    operation count [(2^53 + 1) * 320] divided by the elapsed second (as a
    [double]: 320 * 2^53 + 512): the conversion [(double)iterations] has
    already rounded the count. *)
Lemma throughput_formula_fails_for_large_counts :
  exists r,
    benchmark FP32 9007199254740993 (D_of_Z 1) = Some r /\
    b_flops r <> spec_throughput FP32 9007199254740993 (D_of_Z 1).
Proof.
  destruct (benchmark_runs FP32 9007199254740993 (D_of_Z 1)) as (k & _ & Hb).
  - split; zcmp.
  - eexists. split; [exact Hb|]. cbn [b_flops]. vm_compute. discriminate.
Qed.

(** C1 (amended). For every iteration count [n > 0] with [10 * n < 2^53]
    and each precision, the benchmark returns the operation count
    [n * 10 * lanes * 2] divided, in [double], by the elapsed seconds;
    [lanes] is 16 for single and 8 for double precision. *)
Theorem throughput_formula (p : precision) (n : Z) (elapsed : double) :
  0 < n -> n * 10 < 2 ^ 53 ->
  (exists r, benchmark p n elapsed = Some r /\
             b_flops r = spec_throughput p n elapsed) /\
  lanes_of FP32 = 16 /\ lanes_of FP64 = 8.
Proof.
  intros Hn Hs. split; [|split; reflexivity].
  assert (Hsz : 0 <= n < SIZE_MAX1).
  { split; [lia|]. apply Z.lt_trans with (2 ^ 53); [lia|reflexivity]. }
  destruct (benchmark_runs p n elapsed Hsz) as (k & _ & ->).
  eexists. split; [reflexivity|]. cbn [b_flops].
  unfold throughput, spec_throughput. now rewrite flops_count_exact.
Qed.

Lemma throughput_formula_witness :
  0 < 1000 /\ 1000 * 10 < 2 ^ 53 /\
  exists r, benchmark FP32 1000 (literal Dprec Demax 1 10000) = Some r /\
            b_flops r = spec_throughput FP32 1000 (literal Dprec Demax 1 10000).
Proof.
  split; [reflexivity|]. split; [reflexivity|].
  exact (proj1 (throughput_formula FP32 1000 (literal Dprec Demax 1 10000)
                  ltac:(reflexivity) ltac:(reflexivity))).
Defined.

(** ** Splitting the iteration budget *)

(** C2. For 4, 8 or 16 workers and a total budget [T], every worker gets
    [T / N] iterations (integer division), the remainder
    [T - N * (T / N)] is dropped, and for [T = 100000000] the shares are
    25000000, 12500000 and 6250000. *)
Theorem iterations_are_split_evenly (N T : Z) :
  N = 4 \/ N = 8 \/ N = 16 ->
  0 <= T < SIZE_MAX1 ->
  split_iterations T N = T / N /\
  worker_shares T N = replicate (Z.to_nat N) (T / N) /\
  (forall i share, worker_shares T N !! i = Some share -> share = T / N) /\
  List.length (worker_shares T N) = Z.to_nat N /\
  T - N * (T / N) = T mod N /\
  0 <= T - N * (T / N) < N /\
  N * (T / N) <= T /\
  iterations_per_thread 4 = 25000000 /\
  iterations_per_thread 8 = 12500000 /\
  iterations_per_thread 16 = 6250000.
Proof.
  intros HN HT.
  assert (Hs : split_iterations T N = T / N).
  { unfold split_iterations, to_size_t.
    rewrite (Z.mod_small N) by (destruct HN as [->|[->| ->]]; split; zcmp).
    reflexivity. }
  assert (Hw : worker_shares T N = replicate (Z.to_nat N) (T / N)).
  { unfold worker_shares. rewrite Hs.
    generalize 0%nat. induction (Z.to_nat N) as [|n IH]; intro k; [reflexivity|].
    cbn. now rewrite IH. }
  assert (HNpos : 0 < N) by (destruct HN as [->|[->| ->]]; lia).
  pose proof (Z.div_mod T N ltac:(lia)) as Hdm.
  pose proof (Z.mod_pos_bound T N HNpos) as Hmod.
  split; [exact Hs|]. split; [exact Hw|]. split.
  { intros i share. rewrite Hw. intro Hl.
    apply lookup_replicate in Hl. apply Hl. }
  split; [rewrite Hw; apply length_replicate|].
  repeat split; try reflexivity; lia.
Qed.

Lemma iterations_are_split_evenly_witness :
  (4 = 4 \/ 4 = 8 \/ 4 = 16) /\ 0 <= 100000003 < SIZE_MAX1 /\
  split_iterations 100000003 4 = 100000003 / 4 /\
  100000003 - 4 * (100000003 / 4) = 100000003 mod 4.
Proof.
  split; [left; reflexivity|]. split; [split; zcmp|].
  destruct (iterations_are_split_evenly 4 100000003) as (H1 & _ & _ & _ & H2 & _).
  - left; reflexivity.
  - split; zcmp.
  - split; assumption.
Defined.

(** ** Summing the per-worker results *)

Lemma aggregate_snoc (rs : list double) (r : double) :
  aggregate (rs ++ [r]) = Dadd (aggregate rs) r.
Proof. unfold aggregate. now rewrite fold_left_app. Qed.

Lemma Zsum_nonneg (zs : list Z) : Forall (fun z => 0 <= z) zs -> 0 <= Zsum zs.
Proof. unfold Zsum. induction 1 as [|z zs Hz _ IH]; cbn; lia. Qed.

Lemma Zsum_permutation (zs zs' : list Z) :
  Permutation zs zs' -> Zsum zs = Zsum zs'.
Proof. unfold Zsum. induction 1; cbn in *; lia. Qed.

(** Sums of non-negative integers below 2^53 are computed exactly. *)
Lemma fold_Dadd_of_Z (zs : list Z) (a : Z) :
  0 <= a -> Forall (fun z => 0 <= z) zs -> a + Zsum zs < 2 ^ 53 ->
  fold_left Dadd (List.map D_of_Z zs) (D_of_Z a) = D_of_Z (a + Zsum zs).
Proof.
  intros Ha Hzs. revert a Ha. induction Hzs as [|z zs Hz Hzs IH]; intros a Ha Hs.
  - cbn. now rewrite Z.add_0_r.
  - cbn [List.map fold_left Zsum fold_right] in *. fold (Zsum zs) in *.
    pose proof (Zsum_nonneg zs Hzs) as Hnn.
    unfold Dadd at 2, D_of_Z at 2 3.
    rewrite (SFadd_of_Z Dprec Demax Dprec_gt_1 Dprec_lt_Demax a z Ha Hz)
      by (unfold Dprec; lia).
    fold D_of_Z. rewrite IH by lia. f_equal. lia.
Qed.

Lemma aggregate_of_Z (zs : list Z) :
  Forall (fun z => 0 <= z) zs -> Zsum zs < 2 ^ 53 ->
  aggregate (List.map D_of_Z zs) = D_of_Z (Zsum zs).
Proof.
  intros Hzs Hs. unfold aggregate.
  change (S754_zero false) with (D_of_Z 0).
  now rewrite fold_Dadd_of_Z.
Qed.

(** ** Growth of the accumulators *)

(** One step multiplies a lane by a little more than one and adds a
    little; the rounded result is bounded through the lane's [potential].
    While the potential is at most [B * 2 ^ t], a step adds at most [B];
    so the potential needs [2 ^ (t - 1)] steps to double. *)

Section Growth.
Variables prec emax : Z.
Hypothesis Hprec : 1 < prec.
Hypothesis Hemax : prec < emax.
Variables (M A : positive) (eA : Z).
Variables (t sigma : Z).
Hypothesis HM : Z.pos (digits2_pos M) = prec.
Hypothesis HeA : 1 - 2 * prec <= eA.
Hypothesis Ht : 0 < t.
Hypothesis Hsigma : sigma + (1 - 2 * prec) + 1 <= emax.
Local Set Default Proof Using "Hprec Hemax HM HeA Ht Hsigma".

Let P := 2 ^ (prec - 1).
Let A' := Z.pos A * 2 ^ (eA - (1 - 2 * prec)).

Lemma fma_step_growth (m : positive) (e B : Z) :
  Z.pos (digits2_pos m) = prec -> - prec <= e ->
  0 < B ->
  potential prec m e <= B * 2 ^ t ->
  B * 2 ^ t * (Z.pos M * (P + 1) - P * P) + A' * (P + 1) <= B * (P * P) ->
  B * 2 ^ t * Z.pos M + A' < 2 ^ sigma ->
  exists m' e',
    fma_step prec emax M A eA (S754_finite false m e) = S754_finite false m' e' /\
    Z.pos (digits2_pos m') = prec /\ - prec <= e' /\
    potential prec m' e' <= potential prec m e + B.
Proof.
  intros Hm He HB HW Hgrow Hrange.
  set (W := potential prec m e) in *.
  set (e0 := 1 - 2 * prec) in *.
  pose proof (digits2_bounds m) as Bm. rewrite Hm in Bm. fold P in Bm.
  pose proof (digits2_bounds M) as BM. rewrite HM in BM. fold P in BM.
  assert (HP : 0 < P) by (apply Z.pow_pos_nonneg; lia).
  assert (Hp2 : 2 ^ prec = 2 * P).
  { unfold P. replace prec with (Z.succ (prec - 1)) at 1 by lia. apply Z.pow_succ_r. lia. }
  unfold fma_step, SFfma, exact_mul. cbn [xorb SFadd].
  set (ez := Z.min (e + (1 - prec)) eA).
  assert (Hez : e0 <= ez) by (unfold ez, e0; lia).
  destruct (shl_align_spec (m * M) (e + (1 - prec)) ez ltac:(lia)) as (n1 & -> & Hn1).
  destruct (shl_align_spec A eA ez ltac:(lia)) as (n2 & -> & Hn2).
  cbn [fst cond_Zopp].
  change (Z.pos n1 + Z.pos n2) with (Z.pos (n1 + n2)). cbn [binary_normalize].
  set (N := (n1 + n2)%positive).
  assert (HN : Z.pos N = Z.pos m * Z.pos M * 2 ^ (e + (1 - prec) - ez) + Z.pos A * 2 ^ (eA - ez)).
  { unfold N. rewrite Pos2Z.inj_add, Hn1, Hn2, Pos2Z.inj_mul. reflexivity. }
  assert (Hsh1 : 0 < 2 ^ (e + (1 - prec) - ez)) by (apply Z.pow_pos_nonneg; lia).
  assert (Hsh2 : 0 < 2 ^ (eA - ez)) by (apply Z.pow_pos_nonneg; lia).
  assert (Hsc : 0 < 2 ^ (ez - e0)) by (apply Z.pow_pos_nonneg; lia).
  (* the exact sum, at the scale of e0 *)
  assert (HS : Z.pos N * 2 ^ (ez - e0) = W * Z.pos M + A').
  { rewrite HN, Z.mul_add_distr_r. unfold W, potential, A'. f_equal.
    - rewrite <- !Z.mul_assoc, <- Z.pow_add_r by lia.
      replace (e + (1 - prec) - ez + (ez - e0)) with (e + prec) by (unfold e0; lia). ring.
    - rewrite <- !Z.mul_assoc, <- Z.pow_add_r by lia. do 2 f_equal. lia. }
  assert (HWlo : P * 2 ^ (e + prec) <= W).
  { unfold W, potential. apply Z.mul_le_mono_nonneg_r; [apply Z.pow_nonneg|]; lia. }
  assert (Hep : 1 <= 2 ^ (e + prec)) by (assert (0 < 2 ^ (e + prec)) by (apply Z.pow_pos_nonneg; lia); lia).
  assert (HWP : P <= W).
  { assert (P * 1 <= P * 2 ^ (e + prec)) by (apply Z.mul_le_mono_nonneg_l; lia).
    lia. }
  assert (HA' : 0 < A') by (apply Z.mul_pos_pos; [lia|apply Z.pow_pos_nonneg; lia]).
  assert (HmM : P * P <= Z.pos m * Z.pos M)
    by (apply Z.mul_le_mono_nonneg; lia).
  assert (HNlo : P * P <= Z.pos N).
  { rewrite HN. assert (Z.pos m * Z.pos M * 1 <= Z.pos m * Z.pos M * 2 ^ (e + (1 - prec) - ez))
      by (apply Z.mul_le_mono_nonneg_l; lia). lia. }
  pose proof (digits2_bounds N) as BN.
  set (dN := Z.pos (digits2_pos N)) in *.
  assert (HdNlo : 2 * prec - 1 <= dN).
  { replace (2 * prec - 1) with ((prec - 1) + (prec - 1) + 1) by lia.
    apply digits2_lower. rewrite Z.pow_add_r by lia. fold P. lia. }
  (* exponent window of the rounded sum *)
  assert (Hlow : 2 * prec - 1 + e0 <= dN + ez).
  { assert (H1 : 2 ^ (2 * prec - 2) < 2 ^ (dN + ez - e0)).
    { replace (2 * prec - 2) with ((prec - 1) + (prec - 1)) by lia.
      rewrite Z.pow_add_r by lia. fold P.
      replace (dN + ez - e0) with (dN + (ez - e0)) by lia.
      rewrite Z.pow_add_r by lia.
      assert (2 ^ dN * 1 <= 2 ^ dN * 2 ^ (ez - e0))
        by (apply Z.mul_le_mono_nonneg_l; lia).
      lia. }
    apply Z.pow_lt_mono_r_iff in H1; lia. }
  assert (Hhigh : dN + ez <= sigma + e0).
  { assert (H1 : 2 ^ (dN - 1 + (ez - e0)) < 2 ^ sigma).
    { rewrite Z.pow_add_r by lia.
      assert (2 ^ (dN - 1) * 2 ^ (ez - e0) <= Z.pos N * 2 ^ (ez - e0))
        by (apply Z.mul_le_mono_nonneg_r; lia).
      assert (W * Z.pos M <= B * 2 ^ t * Z.pos M)
        by (apply Z.mul_le_mono_nonneg_r; lia).
      lia. }
    destruct (Z_lt_le_dec sigma 0) as [Hneg|Hnn].
    - rewrite (Z.pow_neg_r 2 sigma) in H1 by lia.
      assert (0 < 2 ^ (dN - 1 + (ez - e0))) by (apply Z.pow_pos_nonneg; lia). lia.
    - apply Z.pow_lt_mono_r_iff in H1; lia. }
  unfold binary_round. fold dN. rewrite fexp_normal by (unfold emin, e0 in *; lia).
  rewrite shl_align_noop by lia.
  destruct (binary_round_aux_normal prec emax Hprec Hemax false N ez)
    as (M' & E' & -> & HdM & HE & [_ Hval] & _); fold dN;
    try (unfold emin, e0 in *; lia).
  fold dN in HE, Hval. set (n := dN - prec) in *.
  exists M', E'. split; [reflexivity|]. split; [exact HdM|].
  split; [unfold e0 in *; lia|].
  set (W' := potential prec M' E').
  assert (H2n : 0 < 2 ^ n) by (apply Z.pow_pos_nonneg; lia).
  assert (Hq : Z.pos N / 2 ^ n * 2 ^ n <= Z.pos N).
  { pose proof (Z.mul_div_le (Z.pos N) (2 ^ n) H2n). lia. }
  assert (HW' : W' * P = Z.pos M' * 2 ^ (E' - ez) * 2 ^ (ez - e0)).
  { unfold W', potential, P. rewrite <- !Z.mul_assoc, <- !Z.pow_add_r by (unfold e0 in *; lia).
    do 2 f_equal. unfold e0. lia. }
  assert (HU : 2 ^ n * 2 ^ (ez - e0) * P <= W * Z.pos M + A').
  { rewrite <- HS. unfold P. rewrite <- Z.mul_assoc, (Z.mul_comm (2 ^ (ez - e0))), Z.mul_assoc.
    rewrite <- Z.pow_add_r by lia. replace (n + (prec - 1)) with (dN - 1) by (unfold n; lia).
    apply Z.mul_le_mono_nonneg_r; lia. }
  set (c := 2 ^ (ez - e0)) in *. set (S := W * Z.pos M + A') in *.
  assert (Hval' : Z.pos M' * 2 ^ (E' - ez) <= Z.pos N + 2 ^ n) by lia.
  assert (Hmain : W' * P <= S + 2 ^ n * c).
  { rewrite HW', <- HS, <- Z.mul_add_distr_r.
    apply Z.mul_le_mono_nonneg_r; lia. }
  assert (Hsq : W' * P * P <= S * (P + 1)).
  { assert (W' * P * P <= (S + 2 ^ n * c) * P)
      by (apply Z.mul_le_mono_nonneg_r; lia). lia. }
  assert (Hd : 0 <= Z.pos M * (P + 1) - P * P).
  { assert (P * P <= Z.pos M * P) by (apply Z.mul_le_mono_nonneg_r; lia). lia. }
  assert (HWd : W * (Z.pos M * (P + 1) - P * P) <=
                B * 2 ^ t * (Z.pos M * (P + 1) - P * P))
    by (apply Z.mul_le_mono_nonneg_r; lia).
  assert (Hfin : W' * (P * P) <= (W + B) * (P * P)) by (unfold S in Hsq; lia).
  apply Z.mul_le_mono_pos_r in Hfin; [exact Hfin|].
  apply Z.mul_pos_pos; lia.
Qed.

Variables (b0 Kmax : Z).
Hypothesis Hb0 : 0 < b0.
Hypothesis HKmax : 0 <= Kmax.
Hypothesis Hgrow0 :
  b0 * 2 ^ t * (Z.pos M * (P + 1) - P * P) + A' * (P + 1) <= b0 * (P * P).
Hypothesis Hrange0 : b0 * 2 ^ Kmax * 2 ^ t * Z.pos M + A' < 2 ^ sigma.
Local Set Default Proof Using
  "Hprec Hemax HM HeA Ht Hsigma Hb0 HKmax Hgrow0 Hrange0".

Let T := 2 ^ (t - 1).

Lemma growth_scales (B : Z) :
  b0 <= B ->
  B * 2 ^ t * (Z.pos M * (P + 1) - P * P) + A' * (P + 1) <= B * (P * P).
Proof.
  intro HB.
  assert (HP : 0 < P) by (apply Z.pow_pos_nonneg; lia).
  assert (HA' : 0 < A') by (apply Z.mul_pos_pos; [lia|apply Z.pow_pos_nonneg; lia]).
  set (D := Z.pos M * (P + 1) - P * P) in *.
  set (R := P * P - 2 ^ t * D).
  assert (HR0 : A' * (P + 1) <= b0 * R) by (unfold R; lia).
  assert (Hc : 0 < A' * (P + 1)) by (apply Z.mul_pos_pos; lia).
  assert (HR : 0 <= R).
  { destruct (Z_lt_le_dec R 0) as [Hneg|]; [|assumption].
    assert (b0 * R <= 0) by (apply Z.mul_nonneg_nonpos; lia). lia. }
  assert (b0 * R <= B * R) by (apply Z.mul_le_mono_nonneg_r; lia).
  unfold R in *. lia.
Qed.

Lemma range_scales (k : Z) :
  0 <= k <= Kmax -> b0 * 2 ^ k * 2 ^ t * Z.pos M + A' < 2 ^ sigma.
Proof.
  intro Hk.
  assert (2 ^ k <= 2 ^ Kmax) by (apply Z.pow_le_mono_r; lia).
  assert (0 < 2 ^ t) by (apply Z.pow_pos_nonneg; lia).
  assert (b0 * 2 ^ k <= b0 * 2 ^ Kmax) by (apply Z.mul_le_mono_nonneg_l; lia).
  assert (b0 * 2 ^ k * 2 ^ t <= b0 * 2 ^ Kmax * 2 ^ t)
    by (apply Z.mul_le_mono_nonneg_r; lia).
  assert (b0 * 2 ^ k * 2 ^ t * Z.pos M <= b0 * 2 ^ Kmax * 2 ^ t * Z.pos M)
    by (apply Z.mul_le_mono_nonneg_r; lia).
  lia.
Qed.

(** After [n = k * T + j] steps the potential is at most
    [b0 * 2 ^ k * (T + j)]: it takes [T] steps to double. *)
Lemma fma_iter_growth (x : spec_float) (n : nat) :
  bounded_lane prec x (b0 * T) ->
  Z.of_nat n < (Kmax + 1) * T ->
  exists k j,
    Z.of_nat n = k * T + j /\ 0 <= k <= Kmax /\ 0 <= j < T /\
    bounded_lane prec (Nat.iter n (fma_step prec emax M A eA) x)
                 (b0 * 2 ^ k * (T + j)).
Proof.
  intros Hx.
  assert (HT : 0 < T) by (apply Z.pow_pos_nonneg; lia).
  assert (H2t : 2 ^ t = 2 * T).
  { unfold T. replace t with (Z.succ (t - 1)) at 1 by lia. apply Z.pow_succ_r. lia. }
  induction n as [|n IH]; intro Hn.
  - exists 0, 0. cbn [Nat.iter nat_rect].
    replace (b0 * 2 ^ 0 * (T + 0)) with (b0 * T) by (rewrite Z.pow_0_r; lia).
    repeat split; try lia. exact Hx.
  - destruct (IH ltac:(lia)) as (k & j & Hkj & Hk & Hj & (m & e & Hy & Hdm & He & HW)).
    rewrite Nat.iter_succ, Hy.
    assert (H2k : 0 < 2 ^ k) by (apply Z.pow_pos_nonneg; lia).
    assert (HB : 0 < b0 * 2 ^ k) by (apply Z.mul_pos_pos; lia).
    destruct (fma_step_growth m e (b0 * 2 ^ k) Hdm He HB) as (m' & e' & Hs & Hdm' & He' & HW').
    + rewrite H2t.
      assert (b0 * 2 ^ k * (T + j) <= b0 * 2 ^ k * (2 * T))
        by (apply Z.mul_le_mono_nonneg_l; lia). lia.
    + apply growth_scales.
      assert (b0 * 1 <= b0 * 2 ^ k) by (apply Z.mul_le_mono_nonneg_l; lia). lia.
    + apply range_scales. exact Hk.
    + destruct (Z_lt_le_dec (j + 1) T) as [Hlt|Hge].
      * exists k, (j + 1). repeat split; try lia.
        exists m', e'. repeat split; try assumption. lia.
      * assert (Hk1 : k + 1 <= Kmax).
        { destruct (Z_lt_le_dec Kmax (k + 1)) as [Hbad|]; [|assumption].
          assert ((Kmax + 1) * T <= (k + 1) * T)
            by (apply Z.mul_le_mono_nonneg_r; lia). lia. }
        assert (Hj1 : j = T - 1) by lia. subst j.
        exists (k + 1), 0. repeat split; try lia.
        exists m', e'. repeat split; try assumption.
        rewrite Z.pow_add_r, Z.pow_1_r by lia.
        replace (b0 * 2 ^ k * (T + (T - 1))) with (b0 * 2 ^ k * (2 * T) - b0 * 2 ^ k)
          in HW by ring.
        replace (b0 * (2 ^ k * 2) * (T + 0)) with (b0 * 2 ^ k * (2 * T)) by ring.
        lia.
Qed.

(** Below [(Kmax + 1) * T] steps the exponent stays under [beta - prec]. *)
Lemma fma_iter_bounded (beta : Z) (x : spec_float) (n : nat) :
  b0 * 2 ^ Kmax * 2 ^ t <= P * 2 ^ beta -> 0 <= beta ->
  bounded_lane prec x (b0 * T) ->
  Z.of_nat n < (Kmax + 1) * T ->
  exists m e,
    Nat.iter n (fma_step prec emax M A eA) x = S754_finite false m e /\
    Z.pos (digits2_pos m) = prec /\ - prec <= e <= beta - prec.
Proof.
  intros Hbeta Hb Hx Hn.
  assert (HT : 0 < T) by (apply Z.pow_pos_nonneg; lia).
  assert (H2t : 2 ^ t = 2 * T).
  { unfold T. replace t with (Z.succ (t - 1)) at 1 by lia. apply Z.pow_succ_r. lia. }
  assert (HP : 0 < P) by (apply Z.pow_pos_nonneg; lia).
  destruct (fma_iter_growth x n Hx Hn)
    as (k & j & _ & Hk & Hj & (m & e & Hy & Hdm & He & HW)).
  exists m, e. split; [exact Hy|]. split; [exact Hdm|]. split; [exact He|].
  pose proof (digits2_bounds m) as Bm. rewrite Hdm in Bm. fold P in Bm.
  assert (H2k : 0 < 2 ^ k) by (apply Z.pow_pos_nonneg; lia).
  assert (Hks : 2 ^ k <= 2 ^ Kmax) by (apply Z.pow_le_mono_r; lia).
  assert (H1 : b0 * 2 ^ k * (T + j) <= b0 * 2 ^ Kmax * 2 ^ t).
  { rewrite H2t.
    assert (b0 * 2 ^ k <= b0 * 2 ^ Kmax) by (apply Z.mul_le_mono_nonneg_l; lia).
    assert (b0 * 2 ^ k * (T + j) <= b0 * 2 ^ k * (2 * T))
      by (apply Z.mul_le_mono_nonneg_l; lia).
    assert (b0 * 2 ^ k * (2 * T) <= b0 * 2 ^ Kmax * (2 * T))
      by (apply Z.mul_le_mono_nonneg_r; lia). lia. }
  unfold potential in HW.
  assert (Hpe : 0 < 2 ^ (e + prec)) by (apply Z.pow_pos_nonneg; lia).
  assert (H2 : P * 2 ^ (e + prec) <= Z.pos m * 2 ^ (e + prec))
    by (apply Z.mul_le_mono_nonneg_r; lia).
  assert (H3 : P * 2 ^ (e + prec) <= P * 2 ^ beta) by lia.
  apply Z.mul_le_mono_pos_l in H3; [|exact HP].
  apply Z.pow_le_mono_r_iff in H3; lia.
Qed.
End Growth.




Lemma lane_step_F (x : spec_float) :
  lane_step Fprec Femax x = fma_step Fprec Femax 8388609 14073749 (-47) x.
Proof. reflexivity. Qed.

Lemma lane_step_D (x : spec_float) :
  lane_step Dprec Demax x =
  fma_step Dprec Demax 4503600077730459 7555786372591432 (-76) x.
Proof. reflexivity. Qed.

Lemma iter_ext {A} (f g : A -> A) (n : nat) (x : A) :
  (forall y, f y = g y) -> Nat.iter n f x = Nat.iter n g x.
Proof.
  intro H. induction n as [|n IH]; [reflexivity|].
  rewrite !Nat.iter_succ, IH. apply H.
Qed.

Lemma seeds_F_bounded :
  Forall (fun s => bounded_lane Fprec s (16 * 2 ^ (21 - 1))) (seeds Fprec Femax).
Proof.
  repeat constructor;
    (eexists _, _; split; [vm_compute; reflexivity|]; repeat split; zcmp).
Qed.

Lemma seeds_D_bounded :
  Forall (fun s => bounded_lane Dprec s (2 ^ 32 * 2 ^ (22 - 1))) (seeds Dprec Demax).
Proof.
  repeat constructor;
    (eexists _, _; split; [vm_compute; reflexivity|]; repeat split; zcmp).
Qed.

(** Single precision: below 2^97 for the whole iteration budget. *)
Lemma lane_bound_F (s : spec_float) (n : nat) :
  In s (seeds Fprec Femax) -> Z.of_nat n <= ITERATIONS ->
  exists m e,
    Nat.iter n (lane_step Fprec Femax) s = S754_finite false m e /\
    Z.pos (digits2_pos m) = Fprec /\ - Fprec <= e <= 97 - Fprec.
Proof.
  intros Hs Hn.
  pose proof (proj1 (List.Forall_forall _ _) seeds_F_bounded s Hs) as Hb.
  rewrite (iter_ext _ _ n s lane_step_F).
  apply (fma_iter_bounded Fprec Femax ltac:(zcmp) ltac:(zcmp)
           8388609 14073749 (-47) 21 145
           ltac:(zcmp) ltac:(zcmp) ltac:(zcmp) ltac:(zcmp)
           16 95 ltac:(zcmp) ltac:(zcmp) ltac:(zcmp) ltac:(zcmp)
           97 s n ltac:(zcmp) ltac:(zcmp) Hb).
  unfold ITERATIONS in Hn. change ((95 + 1) * 2 ^ (21 - 1)) with 100663296. lia.
Qed.

(** Double precision: below 2^49 for the whole iteration budget. *)
Lemma lane_bound_D (s : spec_float) (n : nat) :
  In s (seeds Dprec Demax) -> Z.of_nat n <= ITERATIONS ->
  exists m e,
    Nat.iter n (lane_step Dprec Demax) s = S754_finite false m e /\
    Z.pos (digits2_pos m) = Dprec /\ - Dprec <= e <= 49 - Dprec.
Proof.
  intros Hs Hn.
  pose proof (proj1 (List.Forall_forall _ _) seeds_D_bounded s Hs) as Hb.
  rewrite (iter_ext _ _ n s lane_step_D).
  apply (fma_iter_bounded Dprec Demax ltac:(zcmp) ltac:(zcmp)
           4503600077730459 7555786372591432 (-76) 22 155
           ltac:(zcmp) ltac:(zcmp) ltac:(zcmp) ltac:(zcmp)
           (2 ^ 32) 47 ltac:(zcmp) ltac:(zcmp) ltac:(zcmp) ltac:(zcmp)
           49 s n ltac:(zcmp) ltac:(zcmp) Hb).
  unfold ITERATIONS in Hn. change ((47 + 1) * 2 ^ (22 - 1)) with 100663296. lia.
Qed.

Lemma normal_pos_weaken (prec : Z) (x : spec_float) (l h h' : Z) :
  normal_pos prec x l h -> h <= h' -> normal_pos prec x l h'.
Proof.
  intros (m & e & -> & Hm & He) Hh. exists m, e. repeat split; try assumption; lia.
Qed.

Lemma normal_pos_finite (prec : Z) (x : spec_float) (l h : Z) :
  normal_pos prec x l h -> is_finite x = true.
Proof. intros (m & e & -> & _). reflexivity. Qed.

Section SinkRange.
Variables prec emax : Z.
Hypothesis Hprec : 1 < prec.
Hypothesis Hemax : prec < emax.
Local Set Default Proof Using "Hprec Hemax".

Lemma doubling_normal_pos (k : nat) (x : spec_float) (l h : Z) :
  normal_pos prec x l h -> emin prec emax <= l ->
  prec + h + 2 * Z.of_nat k <= emax ->
  normal_pos prec (Nat.iter k (fun y => SFadd prec emax y y) x) l
             (h + 2 * Z.of_nat k).
Proof.
  intros Hx Hl. induction k as [|k IH]; intro Hh.
  - cbn [Nat.iter nat_rect]. apply (normal_pos_weaken _ _ _ h); [exact Hx|lia].
  - rewrite Nat.iter_succ.
    replace (h + 2 * Z.of_nat (S k)) with (h + 2 * Z.of_nat k + 2) by lia.
    apply SFadd_normal_pos; try assumption; try lia; apply IH; lia.
Qed.

Lemma sum_normal_pos (x y : spec_float) (l h h' : Z) :
  normal_pos prec x l h -> normal_pos prec y l h' -> h' <= h ->
  emin prec emax <= l -> prec + h + 2 <= emax ->
  normal_pos prec (SFadd prec emax x y) l (h + 2).
Proof.
  intros Hx Hy Hh Hl He. apply SFadd_normal_pos; try assumption.
  apply (normal_pos_weaken _ _ _ h'); assumption.
Qed.

(** The sink of a state whose horizontal sums are in range. *)
Lemma kernel_sink_normal_pos (log_lanes : nat) (a : accs) (l h : Z) :
  Forall (fun v => normal_pos prec (vreduce prec emax log_lanes v) l h)
         (acc_list a) ->
  emin prec emax <= l -> prec + h + 18 <= emax ->
  normal_pos prec (kernel_sink prec emax log_lanes a) l (h + 18).
Proof.
  intros Ha Hl Hh. unfold acc_list in Ha.
  repeat match goal with
         | H : Forall _ (_ :: _) |- _ => apply Forall_cons in H; destruct H
         end.
  unfold kernel_sink.
  replace (h + 18) with (h + 2 + 2 + 2 + 2 + 2 + 2 + 2 + 2 + 2) by lia.
  repeat (apply (sum_normal_pos _ _ _ _ h); [| assumption | lia | assumption | lia]).
  assumption.
Qed.
End SinkRange.

(** C8. For every iteration count up to the program's budget of
    100000000 and for both precisions, every lane of every accumulator is
    a positive normal number below 2^97 (single precision) or 2^49 (double
    precision), far from the overflow threshold 2^128 or 2^1024; the value
    written to the sink is finite as well.  The state is a function of the
    iteration count: the loop is deterministic. *)
Theorem accumulators_never_overflow (p : precision) (n : Z) :
  0 <= n <= ITERATIONS ->
  let prec := fprec p in
  let emax := femax p in
  let hi := match p with FP32 => 97 | FP64 => 49 end in
  exists r,
    kernel prec emax (log_lanes_of p) n = Some r /\
    k_accs r = Nat.iter (Z.to_nat n) (kernel_body prec emax (log_lanes_of p))
                 (kernel_init prec emax (log_lanes_of p)) /\
    Forall (Forall (fun x => is_finite x = true /\
                             normal_pos prec x (- prec) (hi - prec)))
           (acc_list (k_accs r)) /\
    is_finite (k_sink r) = true /\
    normal_pos prec (k_sink r) (- prec) (hi + 26 - prec) /\
    hi + 26 - prec <= emax - prec.
Proof.
  intros Hn prec emax hi.
  assert (Hsz : 0 <= n < SIZE_MAX1).
  { unfold ITERATIONS in Hn. split; [lia|]. apply Z.le_lt_trans with 100000000; [lia|reflexivity]. }
  assert (Hlanes : Forall (fun s =>
            normal_pos prec (Nat.iter (Z.to_nat n) (lane_step prec emax) s)
                       (- prec) (hi - prec)) (seeds prec emax)).
  { apply List.Forall_forall. intros s Hs.
    assert (Hn' : Z.of_nat (Z.to_nat n) <= ITERATIONS) by lia.
    destruct p.
    - destruct (lane_bound_F s (Z.to_nat n) Hs Hn') as (m & e & H1 & H2 & H3).
      exists m, e. repeat split; try assumption; apply H3.
    - destruct (lane_bound_D s (Z.to_nat n) Hs Hn') as (m & e & H1 & H2 & H3).
      exists m, e. repeat split; try assumption; apply H3. }
  eexists. split; [apply kernel_runs; exact Hsz|]. cbn [k_accs k_sink].
  split; [symmetry; apply kernel_body_iter|].
  assert (Hprec : 1 < prec) by (destruct p; reflexivity).
  assert (Hemax : prec < emax) by (destruct p; reflexivity).
  assert (Hsink : normal_pos prec
            (kernel_sink prec emax (log_lanes_of p)
               (accs_after prec emax (log_lanes_of p) (Z.to_nat n)))
            (- prec) (hi + 26 - prec)).
  { replace (hi + 26 - prec) with (hi - prec + 8 + 18) by lia.
    apply kernel_sink_normal_pos; try assumption;
      [|destruct p; zcmp|destruct p; zcmp].
    rewrite acc_list_after. apply Forall_fmap.
    eapply Forall_impl; [exact Hlanes|]. intros s Hs. cbn.
    unfold vreduce. rewrite reduce_add_replicate.
    apply (normal_pos_weaken _ _ _ (hi - prec + 2 * Z.of_nat (log_lanes_of p)));
      [|destruct p; zcmp].
    apply doubling_normal_pos; try assumption; destruct p; zcmp. }
  split; [|split; [|split]].
  - rewrite acc_list_after. apply Forall_fmap.
    eapply Forall_impl; [exact Hlanes|]. intros s Hs. cbn.
    apply Forall_replicate. split; [|exact Hs].
    eapply normal_pos_finite; exact Hs.
  - eapply normal_pos_finite; exact Hsink.
  - exact Hsink.
  - destruct p; zcmp.
Qed.

Lemma accumulators_never_overflow_witness :
  0 <= 2 <= ITERATIONS /\
  exists r, kernel Fprec Femax 4 2 = Some r /\ is_finite (k_sink r) = true.
Proof.
  split; [split; zcmp|].
  destruct (accumulators_never_overflow FP32 2) as (r & Hr & _ & _ & Hs & _).
  - split; zcmp.
  - exists r. split; assumption.
Defined.

(** ** The multi-thread round *)

Lemma prec_eqb_refl (p : precision) : prec_eqb p p = true.
Proof. destruct p; reflexivity. Qed.

Lemma prec_eqb_eq (p q : precision) : prec_eqb p q = true <-> p = q.
Proof. destruct p, q; cbn; split; congruence. Qed.

Lemma prec_eqb_neq (p q : precision) : p <> q -> prec_eqb p q = false.
Proof. destruct p, q; cbn; congruence. Qed.

Lemma logged_cons (f : mt_event -> bool) (e : mt_event) (log : list mt_event) :
  logged f (e :: log) = f e || logged f log.
Proof. reflexivity. Qed.

Lemma logged_app_r (f : mt_event -> bool) (newer older : list mt_event) :
  logged f older = true -> logged f (newer ++ older) = true.
Proof.
  intro H. unfold logged in *. rewrite existsb_app, H. apply orb_true_r.
Qed.

Lemma logged_split (f : mt_event -> bool) (log : list mt_event) :
  logged f log = true ->
  exists newer e older, log = newer ++ e :: older /\ f e = true.
Proof.
  unfold logged. intro H. apply existsb_exists in H as (e & Hin & He).
  apply in_split in Hin as (newer & older & ->). eauto.
Qed.

Lemma is_write_same (p : precision) (i : nat) (slot : nat) (v : double) :
  is_write p i (EvWrite p i slot v) = true.
Proof. cbn. now rewrite prec_eqb_refl, Nat.eqb_refl. Qed.

Lemma is_write_other (p q : precision) (i j slot : nat) (v : double) :
  p <> q \/ i <> j -> is_write p i (EvWrite q j slot v) = false.
Proof.
  intros [H|H]; cbn.
  - now rewrite prec_eqb_neq.
  - apply Nat.eqb_neq in H. rewrite H. apply andb_false_r.
Qed.

Lemma benchmark_some_flops (p : precision) (n : Z) (elapsed : double)
    (r : bench_result) :
  benchmark p n elapsed = Some r ->
  b_flops r = throughput (lanes_of p) n elapsed.
Proof.
  destruct p; cbn [benchmark lanes_of];
    unfold benchmark_avx512_sp, benchmark_avx512_dp;
    destruct (kernel _ _ _ n); intro H; inversion H; reflexivity.
Qed.

Section RoundProofs.
Variable n_threads : nat.
Variable share : Z.
Variable el : precision -> nat -> double.

Local Abbreviation inv := (round_inv n_threads share el).
Local Abbreviation ok := (log_ok n_threads share).

Lemma log_ok_suffix (newer older : list mt_event) :
  ok (newer ++ older) -> ok older.
Proof.
  induction newer as [|e newer IH]; [trivial|]. cbn. intros [H _]. auto.
Qed.

Lemma round_init_inv : inv (round_init n_threads).
Proof.
  constructor; cbn.
  - intros []; cbn; apply length_replicate.
  - exact I.
  - intros k t H. rewrite lookup_nil in H. discriminate.
  - reflexivity.
  - repeat split; [lia|]. intros k t H. rewrite lookup_nil in H. discriminate.
  - repeat split.
  - intros p i Hi. destruct p; cbn; apply lookup_replicate_2; exact Hi.
  - discriminate.
Qed.

(** *** A worker's step *)

Lemma worker_step_inv (k : nat) (s s' : mt_state) :
  inv s -> worker_step share el k s = Some s' -> inv s'.
Proof.
  intros [Hlen Hlog Hth Hfresh Hpc Hphase Hres Htot] Hstep.
  unfold worker_step in Hstep.
  destruct (mt_threads s !! k) as [[p i st]|] eqn:Hk; [|discriminate].
  destruct st; try discriminate.
  destruct (benchmark p share (el p i)) as [r|] eqn:Hb; [|discriminate].
  destruct (i <? List.length (results_of p s))%nat eqn:Hi; [|discriminate].
  injection Hstep as Hs'.
  destruct (Hth k _ Hk) as (Hp & Hid & HkN & Hsp & Hwr & _).
  cbn [t_prec t_id t_status is_running negb] in *. subst i.
  pose proof (lookup_lt_Some _ _ _ Hk) as Hklen.
  assert (Hv : b_flops r = worker_value share el p k)
    by (apply benchmark_some_flops; exact Hb).
  assert (Hnd : mt_pc s <> PDone).
  { intro Hd. rewrite Hd in Hpc. destruct Hpc as [_ Hj].
    specialize (Hj k _ Hk). discriminate. }
  assert (Hsum : logged (is_sum p) (mt_log s) = false).
  { destruct Hphase as [Hph _]. rewrite Hp.
    destruct (mt_pc s); [exact Hph|exact Hph|congruence]. }
  (* the new state, field by field *)
  assert (Epc : mt_pc s' = mt_pc s) by (subst s'; destruct p; reflexivity).
  assert (Eth : mt_threads s' = <[k:=Thread p k Finished]> (mt_threads s))
    by (subst s'; destruct p; reflexivity).
  assert (Elog : mt_log s' = EvWrite p k k (b_flops r) :: mt_log s)
    by (subst s'; destruct p; reflexivity).
  assert (Eres : forall q, results_of q s' =
              if prec_eqb q p then <[k:=b_flops r]> (results_of p s)
              else results_of q s)
    by (subst s'; intro q; destruct p, q; reflexivity).
  assert (Etot : forall q, total_of q s' = total_of q s)
    by (subst s'; intro q; destruct p, q; reflexivity).
  clear Hs'.
  constructor; rewrite ?Epc, ?Eth, ?Elog.
  - intro q. rewrite Eres. destruct (prec_eqb q p); [|apply Hlen].
    rewrite length_insert. apply Hlen.
  - cbn. repeat split; assumption.
  - intros k' t' Hk'.
    destruct (decide (k' = k)) as [->|Hne].
    + rewrite list_lookup_insert_eq in Hk' by exact Hklen.
      injection Hk' as <-. unfold thread_ok.
      cbn [t_prec t_id t_status is_running negb].
      rewrite !logged_cons, is_write_same. cbn [is_spawn orb].
      repeat split; try assumption. discriminate.
    + rewrite list_lookup_insert_ne in Hk' by congruence.
      destruct (Hth k' t' Hk') as (H1 & H2 & H3 & H4 & H5 & H6).
      unfold thread_ok. rewrite !logged_cons.
      rewrite (is_write_other (t_prec t') p k' k) by (right; exact Hne).
      cbn [is_spawn is_join orb]. repeat split; assumption.
  - intros i Hi'. rewrite length_insert in Hi'. rewrite logged_cons.
    rewrite is_write_other by (right; lia). cbn [orb]. now apply Hfresh.
  - destruct (mt_pc s) as [q i|q j|]; cbn [pc_ok] in *.
    + destruct Hpc as (H1 & H2 & H3). rewrite length_insert.
      repeat split; try assumption. intros k' t' Hk'.
      destruct (decide (k' = k)) as [->|Hne].
      * rewrite list_lookup_insert_eq in Hk' by exact Hklen.
        injection Hk' as <-. discriminate.
      * rewrite list_lookup_insert_ne in Hk' by congruence. eauto.
    + destruct Hpc as (H1 & H2 & H3). rewrite length_insert.
      repeat split; try assumption; intros Hx;
        (destruct (decide (k0 = k)) as [->|Hne];
         [rewrite list_lookup_insert_eq in H by exact Hklen;
          injection H as <-
         |rewrite list_lookup_insert_ne in H by congruence]).
      * discriminate.
      * now apply (H3 k0 t).
      * exfalso. pose proof (proj2 (H3 k _ Hk) Hx). discriminate.
      * now apply (H3 k0 t).
    + congruence.
  - destruct Hphase as [Hph1 Hph2]. split.
    + destruct (mt_pc s); rewrite logged_cons; cbn [is_sum orb]; assumption.
    + destruct (cur_prec (mt_pc s)); rewrite ?logged_cons; cbn [is_sum orb].
      * destruct Hph2 as [Ha Hb']. split; [exact Ha|].
        intro i. rewrite logged_cons, is_write_other; [apply Hb'|].
        left. congruence.
      * exact Hph2.
  - intros q i Hi'. rewrite Eres, logged_cons.
    destruct (prec_eqb q p) eqn:Eq.
    + apply prec_eqb_eq in Eq. subst q.
      destruct (decide (i = k)) as [->|Hne].
      * rewrite is_write_same. cbn [orb].
        rewrite list_lookup_insert_eq by (rewrite Hlen; exact HkN).
        now rewrite Hv.
      * rewrite is_write_other by (right; exact Hne). cbn [orb].
        rewrite list_lookup_insert_ne by congruence. now apply Hres.
    + rewrite is_write_other; [cbn [orb]; now apply Hres|].
      left. intros ->. now rewrite prec_eqb_refl in Eq.
  - intros q. rewrite logged_cons. cbn [is_sum orb]. intro Hq.
    rewrite Etot, Eres.
    destruct (prec_eqb q p) eqn:Eq.
    + apply prec_eqb_eq in Eq. subst q. congruence.
    + destruct (Htot q Hq) as [Ht Hw]. split; [exact Ht|].
      intros i Hi'. rewrite logged_cons, (Hw i Hi'). apply orb_true_r.
Qed.
(** *** The orchestrator's steps *)

Lemma spawn_inv (s : mt_state) (p : precision) (i : nat) :
  inv s -> mt_pc s = PSpawn p i -> (i < n_threads)%nat ->
  inv (log_event (EvSpawn p i share)
         (set_pc (PSpawn p (S i))
            (set_threads (mt_threads s ++ [Thread p i Running]) s))).
Proof.
  intros [Hlen Hlog Hth Hfresh Hpc Hphase Hres Htot] Ec Hi.
  rewrite Ec in *. cbn [pc_ok cur_prec] in *.
  destruct Hpc as (Hl & _ & Hnj). destruct Hphase as [Hph1 Hph2].
  constructor; cbn [mt_pc mt_threads mt_log log_event set_pc set_threads].
  - intros []; cbn; apply (Hlen FP32) || apply (Hlen FP64).
  - cbn. repeat split; try assumption.
    intros ->. exact Hph2.
  - intros k t Hk. unfold thread_ok. rewrite !logged_cons.
    cbn [is_write is_join orb cur_prec].
    destruct (decide (k < i)%nat) as [Hlt|Hge].
    + rewrite lookup_app_l in Hk by lia.
      destruct (Hth k t Hk) as (H1 & H2 & H3 & H4 & H5 & H6).
      rewrite H4, orb_true_r. repeat split; assumption.
    + pose proof (lookup_lt_Some _ _ _ Hk) as Hklen.
      rewrite length_app in Hklen. cbn in Hklen.
      assert (k = i) by lia. subst k.
      rewrite lookup_app_r, Hl, Nat.sub_diag in Hk by lia.
      injection Hk as <-. cbn [t_prec t_id t_status is_running negb is_spawn].
      rewrite prec_eqb_refl, Nat.eqb_refl. cbn [andb orb].
      repeat split; try assumption; [|discriminate].
      apply Hfresh. lia.
  - intros k Hk. rewrite length_app in Hk. cbn in Hk.
    rewrite logged_cons. cbn [is_write orb cur_prec]. apply Hfresh. lia.
  - cbn [pc_ok]. rewrite length_app. cbn. repeat split; try lia.
    intros k t Hk. destruct (decide (k < i)%nat) as [Hlt|Hge].
    + rewrite lookup_app_l in Hk by lia. eauto.
    + pose proof (lookup_lt_Some _ _ _ Hk) as Hklen.
      rewrite length_app in Hklen. cbn in Hklen.
      assert (k = i) by lia. subst k.
      rewrite lookup_app_r, Hl, Nat.sub_diag in Hk by lia.
      injection Hk as <-. discriminate.
  - split; cbn [cur_prec]; rewrite ?logged_cons; cbn [is_sum orb]; [exact Hph1|].
    destruct p; [|exact Hph2]. destruct Hph2 as [Ha Hb]. split; [exact Ha|].
    intro k. rewrite logged_cons. cbn [is_write orb]. apply Hb.
  - intros q k Hk. rewrite logged_cons. cbn [is_write orb].
    destruct q; cbn; apply (Hres FP32 k Hk) || apply (Hres FP64 k Hk).
  - intros q. rewrite logged_cons. cbn [is_sum orb]. intro Hq.
    destruct (Htot q Hq) as [Ht Hw]. split.
    + destruct q; exact Ht.
    + intros k Hk. rewrite logged_cons. cbn [is_write orb]. now apply Hw.
Qed.

Lemma spawn_exit_inv (s : mt_state) (p : precision) (i : nat) :
  inv s -> mt_pc s = PSpawn p i -> ~ (i < n_threads)%nat ->
  inv (set_pc (PJoin p 0) s).
Proof.
  intros [Hlen Hlog Hth Hfresh Hpc Hphase Hres Htot] Ec Hi.
  rewrite Ec in *. cbn [pc_ok cur_prec] in *.
  destruct Hpc as (Hl & Hle & Hnj).
  constructor; cbn [mt_pc mt_threads mt_log set_pc].
  - exact Hlen.
  - exact Hlog.
  - exact Hth.
  - exact Hfresh.
  - cbn [pc_ok]. repeat split; try lia.
    intro Hj. exfalso. eapply Hnj; eauto.
  - exact Hphase.
  - exact Hres.
  - exact Htot.
Qed.

Lemma join_inv (s : mt_state) (p : precision) (j : nat) (t : thread) :
  inv s -> mt_pc s = PJoin p j -> mt_threads s !! j = Some t ->
  t_status t = Finished ->
  inv (log_event (EvJoin p j)
         (set_pc (PJoin p (S j))
            (set_threads
               (<[j := Thread (t_prec t) (t_id t) Joined]> (mt_threads s)) s))).
Proof.
  intros [Hlen Hlog Hth Hfresh Hpc Hphase Hres Htot] Ec Hj Hst.
  rewrite Ec in *. cbn [pc_ok cur_prec] in *.
  destruct Hpc as (Hl & Hle & Hjn). destruct Hphase as [Hph1 Hph2].
  pose proof (lookup_lt_Some _ _ _ Hj) as Hjlen.
  destruct (Hth j t Hj) as (Hp & Hid & HjN & Hsp & Hwr & _).
  rewrite Hst in Hwr. cbn [is_running negb] in Hwr. rewrite Hp in *.
  constructor; cbn [mt_pc mt_threads mt_log log_event set_pc set_threads].
  - intros []; cbn; apply (Hlen FP32) || apply (Hlen FP64).
  - cbn. repeat split; assumption.
  - intros k t' Hk. unfold thread_ok. rewrite !logged_cons.
    cbn [is_write is_spawn orb cur_prec].
    destruct (decide (k = j)) as [->|Hne].
    + rewrite list_lookup_insert_eq in Hk by exact Hjlen.
      injection Hk as <-. cbn [t_prec t_id t_status is_running negb is_join].
      rewrite prec_eqb_refl, Nat.eqb_refl. cbn [andb orb].
      repeat split; assumption.
    + rewrite list_lookup_insert_ne in Hk by congruence.
      destruct (Hth k t' Hk) as (H1 & H2 & H3 & H4 & H5 & H6).
      repeat split; try assumption.
      intro HJ. rewrite (H6 HJ). apply orb_true_r.
  - intros k Hk. rewrite length_insert in Hk.
    rewrite logged_cons. cbn [is_write orb cur_prec]. now apply Hfresh.
  - cbn [pc_ok]. rewrite length_insert. repeat split; try lia;
      destruct (decide (k = j)) as [->|Hne];
      try (rewrite list_lookup_insert_eq in H by exact Hjlen; injection H as <-);
      try (rewrite list_lookup_insert_ne in H by congruence);
      cbn [t_status]; try lia; try reflexivity.
    + intro HJ. pose proof (proj1 (Hjn k t0 H) HJ). lia.
    + intro Hlt. apply (Hjn k t0 H). lia.
  - split; cbn [cur_prec]; rewrite ?logged_cons; cbn [is_sum orb]; [exact Hph1|].
    destruct p; [|exact Hph2]. destruct Hph2 as [Ha Hb]. split; [exact Ha|].
    intro k. rewrite logged_cons. cbn [is_write orb]. apply Hb.
  - intros q k Hk. rewrite logged_cons. cbn [is_write orb].
    destruct q; cbn; apply (Hres FP32 k Hk) || apply (Hres FP64 k Hk).
  - intros q. rewrite logged_cons. cbn [is_sum orb]. intro Hq.
    destruct (Htot q Hq) as [Ht Hw]. split.
    + destruct q; exact Ht.
    + intros k Hk. rewrite logged_cons. cbn [is_write orb]. now apply Hw.
Qed.
(** At the end of a join loop every worker of the phase has been
    spawned, has stored its result and has been joined. *)
Lemma joined_all (s : mt_state) (p : precision) (j : nat) :
  inv s -> mt_pc s = PJoin p j -> mt_threads s !! j = None ->
  forall i, (i < n_threads)%nat ->
    logged (is_spawn p i) (mt_log s) = true /\
    logged (is_write p i) (mt_log s) = true /\
    logged (is_join p i) (mt_log s) = true.
Proof.
  intros [Hlen Hlog Hth Hfresh Hpc Hphase Hres Htot] Ec Hj i Hi.
  rewrite Ec in *. cbn [pc_ok cur_prec] in *.
  destruct Hpc as (Hl & Hle & Hjn).
  apply lookup_ge_None in Hj.
  destruct (lookup_lt_is_Some_2 (mt_threads s) i ltac:(lia)) as [t Ht].
  destruct (Hth i t Ht) as (Hp & Hid & _ & Hsp & Hwr & Hjo).
  assert (HJ : t_status t = Joined) by (apply (Hjn i t Ht); lia).
  rewrite HJ in Hwr. cbn in Hwr. rewrite Hp in *. auto.
Qed.

Lemma sum_sp_inv (s : mt_state) (j : nat) :
  inv s -> mt_pc s = PJoin FP32 j -> mt_threads s !! j = None ->
  inv (set_pc (PSpawn FP64 0)
         (set_threads []
            (log_event (EvSum FP32 (aggregate (results_of FP32 s)))
               (set_total FP32 (aggregate (results_of FP32 s)) s)))).
Proof.
  intros Hinv Ec Hj. pose proof (joined_all s FP32 j Hinv Ec Hj) as Hall.
  destruct Hinv as [Hlen Hlog Hth Hfresh Hpc Hphase Hres Htot].
  rewrite Ec in *. cbn [pc_ok cur_prec] in *.
  destruct Hphase as [Hph1 [Hph2 Hph3]].
  constructor;
    cbn [mt_pc mt_threads mt_log log_event set_pc set_threads set_total].
  - intros []; cbn; apply (Hlen FP32) || apply (Hlen FP64).
  - cbn. split; [exact Hlog|]. exact Hall.
  - intros k t Hk. rewrite lookup_nil in Hk. discriminate.
  - intros i _. rewrite logged_cons. cbn [is_write orb cur_prec]. apply Hph3.
  - cbn [pc_ok]. repeat split; [lia|].
    intros k t Hk. rewrite lookup_nil in Hk. discriminate.
  - split; cbn [cur_prec]; rewrite logged_cons; cbn [is_sum prec_eqb orb];
      [exact Hph2|reflexivity].
  - intros q k Hk. rewrite logged_cons. cbn [is_write orb].
    destruct q; cbn; apply (Hres FP32 k Hk) || apply (Hres FP64 k Hk).
  - intros q. rewrite logged_cons. destruct q; cbn [is_sum prec_eqb orb].
    + intros _. split; [reflexivity|].
      intros i Hi. rewrite logged_cons. cbn [is_write orb]. now apply Hall.
    + intro Hq. congruence.
Qed.

Lemma sum_dp_inv (s : mt_state) (j : nat) :
  inv s -> mt_pc s = PJoin FP64 j -> mt_threads s !! j = None ->
  inv (set_pc PDone
         (log_event (EvSum FP64 (aggregate (results_of FP64 s)))
            (set_total FP64 (aggregate (results_of FP64 s)) s))).
Proof.
  intros Hinv Ec Hj. pose proof (joined_all s FP64 j Hinv Ec Hj) as Hall.
  destruct Hinv as [Hlen Hlog Hth Hfresh Hpc Hphase Hres Htot].
  rewrite Ec in *. cbn [pc_ok cur_prec] in *.
  destruct Hpc as (Hl & Hle & Hjn). destruct Hphase as [Hph1 Hph2].
  pose proof Hj as Hj'. apply lookup_ge_None in Hj'.
  constructor;
    cbn [mt_pc mt_threads mt_log log_event set_pc set_threads set_total].
  - intros []; cbn; apply (Hlen FP32) || apply (Hlen FP64).
  - cbn. split; [exact Hlog|]. exact Hall.
  - intros k t Hk. destruct (Hth k t Hk) as (H1 & H2 & H3 & H4 & H5 & H6).
    unfold thread_ok. rewrite !logged_cons. cbn [is_spawn is_write is_join orb cur_prec].
    repeat split; assumption.
  - intros i Hi. rewrite logged_cons. cbn [is_write orb cur_prec].
    now apply Hfresh.
  - cbn [pc_ok]. split; [exact Hl|].
    intros k t Hk. apply (Hjn k t Hk).
    pose proof (lookup_lt_Some _ _ _ Hk). lia.
  - split; cbn [cur_prec]; rewrite logged_cons; cbn [is_sum prec_eqb orb];
      [reflexivity|exact Hph2].
  - intros q k Hk. rewrite logged_cons. cbn [is_write orb].
    destruct q; cbn; apply (Hres FP32 k Hk) || apply (Hres FP64 k Hk).
  - intros q. rewrite logged_cons. destruct q; cbn [is_sum prec_eqb orb].
    + intro Hq. destruct (Htot FP32 Hq) as [Ht Hw]. split; [exact Ht|].
      intros i Hi. rewrite logged_cons. cbn [is_write orb]. now apply Hw.
    + intros _. split; [reflexivity|].
      intros i Hi. rewrite logged_cons. cbn [is_write orb]. now apply Hall.
Qed.

Lemma orch_step_inv (s s' : mt_state) :
  inv s -> orch_step n_threads share s = Some s' -> inv s'.
Proof.
  intros Hinv Hstep. unfold orch_step in Hstep.
  destruct (mt_pc s) as [p i|p j|] eqn:Ec; [| |discriminate].
  - destruct (i <? n_threads)%nat eqn:Hi; injection Hstep as <-.
    + apply Nat.ltb_lt in Hi. now apply spawn_inv.
    + apply Nat.ltb_ge in Hi. apply (spawn_exit_inv s p i); [assumption..|lia].
  - destruct (mt_threads s !! j) as [t|] eqn:Hj.
    + destruct (t_status t) eqn:Hst; try discriminate.
      injection Hstep as <-. now apply join_inv.
    + destruct p; injection Hstep as <-.
      * now apply (sum_sp_inv s j).
      * now apply (sum_dp_inv s j).
Qed.

Lemma mt_step_inv (a : action) (s s' : mt_state) :
  inv s -> mt_step n_threads share el a s = Some s' -> inv s'.
Proof.
  destruct a as [|k]; cbn [mt_step];
    [apply orch_step_inv|apply worker_step_inv].
Qed.

(** Whatever the schedule, the invariant holds of the state reached. *)
Lemma run_schedule_inv (sched : list action) (s s' : mt_state) :
  inv s -> run_schedule n_threads share el sched s = Some s' -> inv s'.
Proof.
  revert s. induction sched as [|a sched IH]; intros s Hinv Hrun.
  - injection Hrun as <-. exact Hinv.
  - cbn [run_schedule] in Hrun.
    destruct (mt_step n_threads share el a s) as [s1|] eqn:Hs; [|discriminate].
    eapply IH; [|exact Hrun]. eapply mt_step_inv; eauto.
Qed.

Lemma reachable_inv (sched : list action) (s : mt_state) :
  run_schedule n_threads share el sched (round_init n_threads) = Some s ->
  inv s.
Proof. apply run_schedule_inv, round_init_inv. Qed.
(** *** What the log of a reachable state shows *)

Lemma logged_sum_here (p : precision) (t : double) (newer older : list mt_event) :
  logged (is_sum p) (newer ++ EvSum p t :: older) = true.
Proof.
  apply logged_app_r. rewrite logged_cons. cbn. now rewrite prec_eqb_refl.
Qed.

(** Nothing is stored into a vector after it has been summed. *)
Lemma no_write_after_sum (p : precision) (t : double)
    (newer older : list mt_event) (i : nat) :
  ok (newer ++ EvSum p t :: older) -> logged (is_write p i) newer = false.
Proof.
  induction newer as [|e newer IH]; [reflexivity|].
  cbn [app log_ok]. intros [Hok He]. rewrite logged_cons, (IH Hok), orb_false_r.
  destruct e as [q j sh|q j slot v|q j|q t']; try reflexivity.
  destruct (decide (p = q)) as [<-|Hne]; [|now apply is_write_other; left].
  destruct He as (_ & _ & _ & _ & Hs).
  now rewrite logged_sum_here in Hs.
Qed.

Lemma write_facts (log newer older : list mt_event) (p : precision)
    (i slot : nat) (v : double) :
  ok log -> log = newer ++ EvWrite p i slot v :: older ->
  slot = i /\ (i < n_threads)%nat /\
  logged (is_spawn p i) older = true /\
  logged (is_write p i) older = false.
Proof.
  intros Hok ->. apply log_ok_suffix in Hok.
  destruct Hok as [_ (H1 & H2 & H3 & H4 & _)]. auto.
Qed.

Lemma sum_facts (log newer older : list mt_event) (p : precision) (t : double) :
  ok log -> log = newer ++ EvSum p t :: older ->
  forall i, (i < n_threads)%nat ->
    logged (is_spawn p i) older = true /\
    logged (is_write p i) older = true /\
    logged (is_join p i) older = true /\
    logged (is_write p i) newer = false.
Proof.
  intros Hok -> i Hi. pose proof (no_write_after_sum p t newer older i Hok) as Hn.
  apply log_ok_suffix in Hok. destruct Hok as [_ H].
  destruct (H i Hi) as (H1 & H2 & H3). auto.
Qed.

Lemma spawn_facts (log newer older : list mt_event) (p : precision)
    (i : nat) (sh : Z) :
  ok log -> log = newer ++ EvSpawn p i sh :: older ->
  sh = share /\ (i < n_threads)%nat /\
  (p = FP64 -> logged (is_sum FP32) older = true).
Proof.
  intros Hok ->. apply log_ok_suffix in Hok. destruct Hok as [_ H]. exact H.
Qed.

Lemma is_sum_inv (p : precision) (e : mt_event) :
  is_sum p e = true -> exists t, e = EvSum p t.
Proof.
  destruct e as [| | |q t]; try discriminate. cbn.
  intro H. apply prec_eqb_eq in H. subst q. eauto.
Qed.

(** In a finished round each result vector holds the workers' values by
    index, and each total is their sum from left to right. *)
Lemma round_totals (sched : list action) (s : mt_state) (p : precision) :
  run_schedule n_threads share el sched (round_init n_threads) = Some s ->
  mt_pc s = PDone ->
  results_of p s = List.map (worker_value share el p) (seq 0 n_threads) /\
  total_of p s =
    Some (aggregate (List.map (worker_value share el p) (seq 0 n_threads))).
Proof.
  intros Hrun Hd. pose proof (reachable_inv sched s Hrun) as Hinv.
  destruct Hinv as [Hlen Hlog Hth Hfresh Hpc Hphase Hres Htot].
  rewrite Hd in Hphase. destruct Hphase as [Hs64 Hs32]. cbn in Hs32.
  assert (Hsum : logged (is_sum p) (mt_log s) = true) by (destruct p; assumption).
  destruct (Htot p Hsum) as [Ht Hw].
  assert (Hr : results_of p s =
               List.map (worker_value share el p) (seq 0 n_threads)).
  { apply list_eq. intro i. rewrite list_lookup_fmap.
    destruct (decide (i < n_threads)%nat) as [Hi|Hi].
    - rewrite (Hres p i Hi), (Hw i Hi), lookup_seq_lt by exact Hi. reflexivity.
    - rewrite lookup_ge_None_2 by (rewrite Hlen; lia).
      rewrite lookup_seq_ge by lia. reflexivity. }
  split; [exact Hr|]. now rewrite Ht, Hr.
Qed.
End RoundProofs.

(** C9. In every multi-thread round with [n_threads] workers, under every
    schedule: both result vectors have exactly [n_threads] slots before the
    first worker is spawned and keep that size; every store is made by a
    worker that was spawned before, into the slot of its own index, which
    is in bounds; no slot of a vector is stored to twice; and when a vector
    is summed, every worker of its phase has stored its result and has
    been joined, and no store into it follows. *)
Theorem workers_write_own_slots (n_threads : nat) (share : Z)
    (el : precision -> nat -> double) (sched : list action) (s : mt_state) :
  run_schedule n_threads share el sched (round_init n_threads) = Some s ->
  (mt_threads (round_init n_threads) = [] /\
   List.length (results_sp (round_init n_threads)) = n_threads /\
   List.length (results_dp (round_init n_threads)) = n_threads) /\
  (List.length (results_sp s) = n_threads /\
   List.length (results_dp s) = n_threads) /\
  (forall newer older p i slot v,
      mt_log s = newer ++ EvWrite p i slot v :: older ->
      slot = i /\ (i < n_threads)%nat /\ logged (is_spawn p i) older = true) /\
  (forall newer mid older p i i' slot v v',
      mt_log s = newer ++ EvWrite p i slot v :: mid ++ EvWrite p i' slot v' :: older ->
      False) /\
  (forall newer older p t,
      mt_log s = newer ++ EvSum p t :: older ->
      forall i, (i < n_threads)%nat ->
        logged (is_write p i) older = true /\
        logged (is_join p i) older = true /\
        logged (is_write p i) newer = false).
Proof.
  intro Hrun. pose proof (reachable_inv n_threads share el sched s Hrun) as Hinv.
  destruct Hinv as [Hlen Hlog _ _ _ _ _ _].
  split; [cbn; rewrite !length_replicate; auto|].
  split; [split; [apply (Hlen FP32)|apply (Hlen FP64)]|].
  split; [|split].
  - intros newer older p i slot v E.
    destruct (write_facts n_threads share _ _ _ _ _ _ _ Hlog E) as (H1 & H2 & H3 & _).
    auto.
  - intros newer mid older p i i' slot v v' E.
    destruct (write_facts n_threads share _ _ _ _ _ _ _ Hlog E) as (H1 & _ & _ & H4).
    rewrite app_comm_cons, app_assoc in E.
    destruct (write_facts n_threads share _ _ _ _ _ _ _ Hlog E) as (H1' & _).
    subst i i'. 
    assert (logged (is_write p slot) (mid ++ EvWrite p slot slot v' :: older) = true)
      by (apply logged_app_r; rewrite logged_cons, is_write_same; reflexivity).
    congruence.
  - intros newer older p t E i Hi.
    destruct (sum_facts n_threads share _ _ _ _ _ Hlog E i Hi) as (_ & H2 & H3 & H4).
    auto.
Qed.

(** C10. In every multi-thread round, under every schedule: when a
    double-precision worker is spawned, the single-precision total has
    already been computed, and before that sum every single-precision
    worker was spawned, stored its result and was joined; and every worker
    of either phase is handed the same [share], the round's
    [iterations_per_thread]. *)
Theorem single_precision_phase_completes_first (n_threads : nat) (share : Z)
    (el : precision -> nat -> double) (sched : list action) (s : mt_state) :
  run_schedule n_threads share el sched (round_init n_threads) = Some s ->
  (forall newer older i sh,
      mt_log s = newer ++ EvSpawn FP64 i sh :: older ->
      exists mid older' total,
        older = mid ++ EvSum FP32 total :: older' /\
        forall j, (j < n_threads)%nat ->
          logged (is_spawn FP32 j) older' = true /\
          logged (is_write FP32 j) older' = true /\
          logged (is_join FP32 j) older' = true) /\
  (forall newer older p i sh,
      mt_log s = newer ++ EvSpawn p i sh :: older -> sh = share).
Proof.
  intro Hrun. pose proof (reachable_inv n_threads share el sched s Hrun) as Hinv.
  destruct Hinv as [_ Hlog _ _ _ _ _ _]. split.
  - intros newer older i sh E.
    destruct (spawn_facts n_threads share _ _ _ _ _ _ Hlog E) as (_ & _ & Hs).
    destruct (logged_split _ _ (Hs eq_refl)) as (mid & e & older' & -> & He).
    apply is_sum_inv in He as [total ->].
    exists mid, older', total. split; [reflexivity|].
    intros j Hj.
    assert (E' : mt_log s =
                 (newer ++ EvSpawn FP64 i sh :: mid) ++ EvSum FP32 total :: older')
      by (rewrite E, <- app_assoc; reflexivity).
    destruct (sum_facts n_threads share _ _ _ _ _ Hlog E' j Hj) as (H1 & H2 & H3 & _).
    auto.
  - intros newer older p i sh E.
    now destruct (spawn_facts n_threads share _ _ _ _ _ _ Hlog E) as (H & _).
Qed.

Lemma workers_write_own_slots_witness :
  exists s,
    run_schedule 2 2 (fun _ _ => D_of_Z 1) (eager_schedule 2) (round_init 2)
      = Some s /\
    List.length (results_sp s) = 2%nat /\ List.length (results_dp s) = 2%nat.
Proof.
  assert (H : exists s,
    run_schedule 2 2 (fun _ _ => D_of_Z 1) (eager_schedule 2) (round_init 2)
      = Some s) by (vm_compute; eexists; reflexivity).
  destruct H as [s Hs]. exists s. split; [exact Hs|].
  exact (proj1 (proj2 (workers_write_own_slots 2 2 _ _ s Hs))).
Defined.

Lemma single_precision_phase_completes_first_witness :
  exists s,
    run_schedule 2 2 (fun _ _ => D_of_Z 1) (eager_schedule 2) (round_init 2)
      = Some s /\
    forall newer older p i sh,
      mt_log s = newer ++ EvSpawn p i sh :: older -> sh = 2.
Proof.
  assert (H : exists s,
    run_schedule 2 2 (fun _ _ => D_of_Z 1) (eager_schedule 2) (round_init 2)
      = Some s) by (vm_compute; eexists; reflexivity).
  destruct H as [s Hs]. exists s. split; [exact Hs|].
  exact (proj2 (single_precision_phase_completes_first 2 2 _ _ s Hs)).
Defined.

(** The scenario of the specification: four workers reporting 1e9, 1.1e9,
    0.9e9 and 1e9 add up to 4e9. *)
Example aggregate_scenario :
  aggregate [D_of_Z 1000000000; D_of_Z 1100000000; D_of_Z 900000000;
             D_of_Z 1000000000] = D_of_Z 4000000000.
Proof. vm_compute. reflexivity. Qed.

(** C4 (counterexample). Four single-precision workers with 25000000
    iterations each, finishing in 101, 103, 107 and 109 milliseconds: summed
    in this order and in the order 103, 101, 109, 107 the totals differ in
    the last bit.  The sum depends on the order of the workers. *)
Lemma aggregate_depends_on_order :
  Permutation (sample_results [101; 103; 107; 109])
              (sample_results [103; 101; 109; 107]) /\
  aggregate (sample_results [101; 103; 107; 109]) <>
  aggregate (sample_results [103; 101; 109; 107]).
Proof.
  split.
  - unfold sample_results. apply Permutation_map.
    apply perm_trans with [103; 101; 107; 109]; [apply perm_swap|].
    do 2 apply perm_skip. apply perm_swap.
  - vm_compute. discriminate.
Qed.

(** C4 (amended). In every finished multi-thread round, under every
    schedule, each reported total is the sum of the [n_threads] per-worker
    throughputs, added in [double] arithmetic from left to right in the
    order of the worker indices, starting from 0.0.  The sum is exact, and
    then independent of the order, when the values are non-negative
    integers whose sum is below 2^53. *)
Theorem total_is_sum_in_worker_order (n_threads : nat) (share : Z)
    (el : precision -> nat -> double) (sched : list action) (s : mt_state) :
  run_schedule n_threads share el sched (round_init n_threads) = Some s ->
  mt_pc s = PDone ->
  (forall p,
      total_of p s =
      Some (fold_left Dadd
              (List.map (fun i => throughput (lanes_of p) share (el p i))
                        (seq 0 n_threads))
              (S754_zero false))) /\
  (forall rs r, aggregate (rs ++ [r]) = Dadd (aggregate rs) r) /\
  (forall zs, Forall (fun z => 0 <= z) zs -> Zsum zs < 2 ^ 53 ->
              aggregate (List.map D_of_Z zs) = D_of_Z (Zsum zs)) /\
  (forall zs zs', Permutation zs zs' ->
                  Forall (fun z => 0 <= z) zs -> Zsum zs < 2 ^ 53 ->
                  aggregate (List.map D_of_Z zs) =
                  aggregate (List.map D_of_Z zs')).
Proof.
  intros Hrun Hd. split; [|split; [|split]].
  - intro p. now destruct (round_totals n_threads share el sched s p Hrun Hd).
  - apply aggregate_snoc.
  - apply aggregate_of_Z.
  - intros zs zs' Hp Hz Hs.
    rewrite (aggregate_of_Z zs Hz Hs).
    rewrite (aggregate_of_Z zs').
    + now rewrite (Zsum_permutation zs zs').
    + eapply Permutation_Forall; eauto.
    + rewrite <- (Zsum_permutation zs zs' Hp). exact Hs.
Qed.

Lemma total_is_sum_in_worker_order_witness :
  exists s,
    run_schedule 2 2 (fun _ _ => D_of_Z 1) (eager_schedule 2) (round_init 2)
      = Some s /\ mt_pc s = PDone /\
    total_of FP32 s =
      Some (fold_left Dadd
              (List.map (fun i => throughput 16 2 (D_of_Z 1)) (seq 0 2))
              (S754_zero false)).
Proof.
  assert (H : exists s,
    run_schedule 2 2 (fun _ _ => D_of_Z 1) (eager_schedule 2) (round_init 2)
      = Some s /\ mt_pc s = PDone) by (vm_compute; eexists; split; reflexivity).
  destruct H as (s & Hs & Hd). exists s. split; [exact Hs|]. split; [exact Hd|].
  exact (proj1 (total_is_sum_in_worker_order 2 2 _ _ s Hs Hd) FP32).
Defined.

(** ** The report driver *)

Lemma mapM_option_map {A B} (f : A -> option B) (g : A -> B) (l : list A) :
  (forall x, f x = Some (g x)) -> mapM f l = Some (List.map g l).
Proof.
  intro H. induction l as [|x l IH]; [reflexivity|].
  cbn. rewrite H, IH. reflexivity.
Qed.

Lemma worker_flops_runs (n_threads : nat) (share : Z)
    (el : precision -> nat -> double) (p : precision) :
  0 <= share < SIZE_MAX1 ->
  worker_flops n_threads share el p =
  Some (List.map (worker_value share el p) (seq 0 n_threads)).
Proof.
  intro H. unfold worker_flops. apply mapM_option_map.
  intro i. now apply benchmark_flops.
Qed.

Lemma call_benchmark_supported (m : machine) (p : precision) (n : Z) :
  avx512f m = true -> 0 <= n < SIZE_MAX1 ->
  call_benchmark m p n =
  ([Measure p n], inr (throughput (lanes_of p) n (elapsed_single m p))).
Proof.
  intros Hm Hn. unfold call_benchmark, exec_vector. rewrite Hm.
  destruct (benchmark_runs p n (elapsed_single m p) Hn) as (k & _ & ->).
  reflexivity.
Qed.


Lemma iterations_per_thread_size (num_threads : Z) :
  0 <= iterations_per_thread num_threads < SIZE_MAX1.
Proof.
  unfold iterations_per_thread, split_iterations, to_size_t.
  pose proof (Z.mod_pos_bound num_threads SIZE_MAX1 ltac:(reflexivity)) as Hb.
  set (d := num_threads mod SIZE_MAX1) in *.
  destruct (Z.eq_dec d 0) as [->|Hd].
  - rewrite Z.div_0_r. split; [lia|reflexivity].
  - assert (0 <= ITERATIONS / d <= ITERATIONS).
    { split; [apply Z.div_pos; unfold ITERATIONS; lia|].
      apply Z.div_le_upper_bound; [lia|]. unfold ITERATIONS. nia. }
    split; [lia|]. apply Z.le_lt_trans with ITERATIONS; [lia|reflexivity].
Qed.

Lemma run_phase_supported (m : machine) (p : precision) (num_threads : Z) :
  avx512f m = true -> 0 < num_threads < SIZE_MAX1 ->
  run_phase m p num_threads =
  ([Round p num_threads (ITERATIONS / num_threads)],
   inr (round_total m num_threads p)).
Proof.
  intros Hm Hn. unfold run_phase, exec_vector. rewrite Hm.
  rewrite worker_flops_runs by apply iterations_per_thread_size.
  unfold iterations_per_thread, split_iterations, to_size_t.
  rewrite (Z.mod_small num_threads) by lia. reflexivity.
Qed.

Lemma run_multithread_benchmark_supported (m : machine) (num_threads : Z) :
  avx512f m = true -> 0 < num_threads < SIZE_MAX1 ->
  run_multithread_benchmark m num_threads = (round_report m num_threads, inr tt).
Proof.
  intros Hm Hn. unfold run_multithread_benchmark.
  replace (num_threads <=? 0) with false by (symmetry; apply Z.leb_gt; lia).
  rewrite !run_phase_supported by assumption. reflexivity.
Qed.

(** On a processor with AVX-512F the session runs to its end. *)
Lemma run_program_supported (m : machine) :
  avx512f m = true -> run_program m = (expected_report m, Exit 0).
Proof.
  intro Hm. unfold run_program, main.
  rewrite !call_benchmark_supported by (assumption || (split; zcmp)).
  rewrite !run_multithread_benchmark_supported by (assumption || (split; zcmp)).
  reflexivity.
Qed.


(** C7. On a processor that executes the kernels the driver runs its
    phases in one fixed order: the single-precision and then the
    double-precision single-thread benchmark with the full budget of
    100000000 iterations, each throughput printed divided by 1e9 with two
    decimals; the hardware thread count; then the rounds with 4, 8 and 16
    workers in that order, each printing the single- and double-precision
    totals; and the process exits with status 0. *)
Theorem report_phases_in_order (m : machine) :
  avx512f m = true ->
  run_program m = (expected_report m, Exit 0) /\
  (forall p, throughput (lanes_of p) ITERATIONS (elapsed_single m p) =
             spec_throughput p ITERATIONS (elapsed_single m p)).
Proof.
  intro Hm. split; [now apply run_program_supported|].
  intro p. unfold throughput, spec_throughput.
  rewrite flops_count_exact by zcmp. reflexivity.
Qed.

Lemma report_phases_in_order_witness :
  avx512f (sample_machine true) = true /\
  run_program (sample_machine true) = (expected_report (sample_machine true), Exit 0).
Proof.
  split; [reflexivity|].
  exact (proj1 (report_phases_in_order (sample_machine true) eq_refl)).
Defined.




(** ** Degenerate durations *)

Lemma throughput_zero_elapsed (p : precision) (n : Z) (s : bool) :
  0 < n < SIZE_MAX1 ->
  throughput (lanes_of p) n (S754_zero s) = S754_infinity s.
Proof.
  intro Hn. destruct (flops_count_normal p n Hn) as (m & e & E & _).
  unfold throughput. rewrite E. reflexivity.
Qed.

Lemma throughput_negative_elapsed (p : precision) (n : Z)
    (mant : positive) (e : Z) :
  0 < n < SIZE_MAX1 ->
  sign_of (throughput (lanes_of p) n (S754_finite true mant e)) = Some true.
Proof.
  intro Hn. destruct (flops_count_normal p n Hn) as (m & e' & E & _).
  unfold throughput. rewrite E. apply SFdiv_pos_neg; reflexivity.
Qed.

(** C3 (counterexample). With a measured duration of zero the benchmark
    returns plus infinity: the division is not guarded. *)
Lemma zero_duration_gives_infinity :
  exists r,
    benchmark FP32 1000 (S754_zero false) = Some r /\
    b_flops r = S754_infinity false.
Proof.
  destruct (benchmark_runs FP32 1000 (S754_zero false)) as (k & _ & Hb).
  - split; zcmp.
  - eexists. split; [exact Hb|]. cbn [b_flops]. vm_compute. reflexivity.
Qed.

(** C3 (amended). The throughput computation has no guard.  For every
    iteration count [0 < n < 2^64] the call returns (no exception); with a
    duration of zero it returns the infinity of the zero's sign, and with a
    negative duration a result with the sign bit set, never a NaN or another
    flag.  The session goes on: when the first measurement has a zero
    duration the report is complete, shows the infinity and the process
    exits with status 0. *)
Theorem degenerate_duration_is_not_guarded (p : precision) (n : Z) :
  0 < n < SIZE_MAX1 ->
  (forall s, exists r,
      benchmark p n (S754_zero s) = Some r /\ b_flops r = S754_infinity s) /\
  (forall mant e, exists r,
      benchmark p n (S754_finite true mant e) = Some r /\
      sign_of (b_flops r) = Some true) /\
  (forall m s,
      avx512f m = true -> elapsed_single m FP32 = S754_zero s ->
      run_program m = (expected_report m, Exit 0) /\
      In (PrintFixed 2 (S754_infinity s)) (expected_report m)).
Proof.
  intro Hn. assert (Hn' : 0 <= n < SIZE_MAX1) by lia. split; [|split].
  - intro s. destruct (benchmark_runs p n (S754_zero s) Hn') as (k & _ & ->).
    eexists. split; [reflexivity|]. now apply throughput_zero_elapsed.
  - intros mant e.
    destruct (benchmark_runs p n (S754_finite true mant e) Hn') as (k & _ & ->).
    eexists. split; [reflexivity|]. now apply throughput_negative_elapsed.
  - intros m s Hm Hz. split; [now apply run_program_supported|].
    unfold expected_report. rewrite Hz.
    change 16 with (lanes_of FP32).
    rewrite throughput_zero_elapsed by (split; zcmp).
    rewrite !in_app_iff. right. right. left.
    right. left. destruct s; reflexivity.
Qed.

Lemma degenerate_duration_is_not_guarded_witness :
  0 < 1000 < SIZE_MAX1 /\
  exists r, benchmark FP32 1000 (S754_zero true) = Some r /\
            b_flops r = S754_infinity true.
Proof.
  split; [split; reflexivity|].
  exact (proj1 (degenerate_duration_is_not_guarded FP32 1000
                  (conj eq_refl eq_refl)) true).
Defined.

(** ** Progress and termination of a round *)

Lemma running_count_app (ts ts' : list thread) :
  running_count (ts ++ ts') = (running_count ts + running_count ts')%nat.
Proof. unfold running_count. now rewrite List.filter_app, length_app. Qed.

Lemma running_count_cons (u : thread) (ts : list thread) :
  running_count (u :: ts) =
  ((if is_running (t_status u) then 1 else 0) + running_count ts)%nat.
Proof. unfold running_count. cbn. now destruct (is_running (t_status u)). Qed.

Lemma running_count_insert (ts : list thread) (k : nat) (t t' : thread) :
  ts !! k = Some t ->
  (running_count (<[k := t']> ts) + (if is_running (t_status t) then 1 else 0) =
   running_count ts + (if is_running (t_status t') then 1 else 0))%nat.
Proof.
  revert k. induction ts as [|u ts IH]; intros k Hk; [discriminate|].
  destruct k as [|k].
  - injection Hk as ->.
    change (<[0%nat := t']> (t :: ts)) with (t' :: ts).
    rewrite !running_count_cons. lia.
  - change (<[S k := t']> (u :: ts)) with (u :: <[k := t']> ts).
    rewrite !running_count_cons. specialize (IH k Hk). lia.
Qed.

Lemma running_count_none (ts : list thread) :
  (forall k t, ts !! k = Some t -> is_running (t_status t) = false) ->
  running_count ts = 0%nat.
Proof.
  induction ts as [|u ts IH]; intro H; [reflexivity|].
  rewrite running_count_cons, (H 0%nat u eq_refl).
  apply IH. intros k t Hk. apply (H (S k) t Hk).
Qed.

Lemma pc_done_dec (c : pc) : c = PDone \/ c <> PDone.
Proof. destruct c; [right; discriminate|right; discriminate|left; reflexivity]. Qed.

Section RoundProgress.
Variable n_threads : nat.
Variable share : Z.
Variable el : precision -> nat -> double.

Local Abbreviation inv := (round_inv n_threads share el).
Local Abbreviation left := (steps_left n_threads).

(** Every step brings the end of the round one step nearer. *)
Lemma mt_step_counts (a : action) (s s' : mt_state) :
  inv s -> mt_step n_threads share el a s = Some s' -> left s = S (left s').
Proof.
  intros Hinv Hstep. destruct Hinv as [Hlen _ Hth _ Hpc _ _ _].
  destruct a as [|k]; cbn [mt_step] in Hstep.
  - unfold orch_step in Hstep.
    destruct (mt_pc s) as [p i|p j|] eqn:Ec; [| |discriminate]; cbn [pc_ok] in Hpc.
    + destruct Hpc as (Hl & Hle & _).
      destruct (i <? n_threads)%nat eqn:Hi; injection Hstep as <-.
      * apply Nat.ltb_lt in Hi. unfold steps_left.
        cbn [mt_pc mt_threads log_event set_pc set_threads]. rewrite Ec.
        rewrite running_count_app.
        change (running_count [Thread p i Running]) with 1%nat.
        destruct p; lia.
      * apply Nat.ltb_ge in Hi. unfold steps_left.
        cbn [mt_pc mt_threads set_pc]. rewrite Ec. destruct p; lia.
    + destruct Hpc as (Hl & Hle & Hjn).
      destruct (mt_threads s !! j) as [t|] eqn:Hj.
      * destruct (t_status t) eqn:Hst; try discriminate.
        injection Hstep as <-.
        pose proof (lookup_lt_Some _ _ _ Hj) as Hjl.
        pose proof (running_count_insert (mt_threads s) j t
                      (Thread (t_prec t) (t_id t) Joined) Hj) as Hrc.
        rewrite Hst in Hrc. cbn in Hrc.
        unfold steps_left. cbn [mt_pc mt_threads log_event set_pc set_threads].
        rewrite Ec. destruct p; lia.
      * apply lookup_ge_None in Hj.
        assert (Hr : running_count (mt_threads s) = 0%nat).
        { apply running_count_none. intros k t Hk.
          assert (HJ : t_status t = Joined).
          { apply (Hjn k t Hk). pose proof (lookup_lt_Some _ _ _ Hk). lia. }
          now rewrite HJ. }
        destruct p; injection Hstep as <-; unfold steps_left;
          cbn [mt_pc mt_threads log_event set_pc set_threads set_total];
          rewrite Ec, ?Hr; cbn [running_count List.filter List.length]; lia.
  - unfold worker_step in Hstep.
    destruct (mt_threads s !! k) as [[p i st]|] eqn:Hk; [|discriminate].
    destruct st; try discriminate.
    destruct (benchmark p share (el p i)) as [r|]; [|discriminate].
    destruct (i <? List.length (results_of p s))%nat; [|discriminate].
    injection Hstep as <-.
    pose proof (running_count_insert (mt_threads s) k _
                  (Thread p i Finished) Hk) as Hrc.
    cbn in Hrc.
    assert (Epc : forall e ts rs,
               mt_pc (log_event e (set_threads ts (set_results p rs s))) = mt_pc s)
      by (intros; destruct p; reflexivity).
    assert (Eth : forall e ts rs,
               mt_threads (log_event e (set_threads ts (set_results p rs s))) = ts)
      by (intros; destruct p; reflexivity).
    unfold steps_left. rewrite Epc, Eth.
    destruct (mt_pc s) as [[] ?|[] ?|]; lia.
Qed.

Lemma run_schedule_counts (sched : list action) (s s' : mt_state) :
  inv s -> run_schedule n_threads share el sched s = Some s' ->
  left s = (List.length sched + left s')%nat.
Proof.
  revert s. induction sched as [|a sched IH]; intros s Hinv Hrun.
  - injection Hrun as <-. reflexivity.
  - cbn [run_schedule] in Hrun.
    destruct (mt_step n_threads share el a s) as [s1|] eqn:Hs; [|discriminate].
    rewrite (mt_step_counts a s s1 Hinv Hs).
    rewrite (IH s1 (mt_step_inv _ _ _ _ _ _ Hinv Hs) Hrun). cbn. lia.
Qed.

Lemma steps_left_done (s : mt_state) :
  inv s -> mt_pc s = PDone -> left s = 0%nat.
Proof.
  intros [_ _ _ _ Hpc _ _ _] Hd. unfold steps_left. rewrite Hd in *.
  destruct Hpc as [_ HJ]. apply running_count_none.
  intros k t Hk. now rewrite (HJ k t Hk).
Qed.

(** Unless the round is over, some step can be taken. *)
Lemma round_progress (s : mt_state) :
  inv s -> 0 <= share < SIZE_MAX1 -> mt_pc s <> PDone ->
  exists a s', mt_step n_threads share el a s = Some s'.
Proof.
  intros Hinv Hsh Hnd. destruct Hinv as [Hlen _ Hth _ Hpc _ _ _].
  destruct (mt_pc s) as [p i|p j|] eqn:Ec; [| |congruence].
  - exists Orchestrator. cbn [mt_step]. unfold orch_step. rewrite Ec.
    destruct (i <? n_threads)%nat; eauto.
  - cbn [pc_ok] in Hpc. destruct Hpc as (Hl & Hle & Hjn).
    destruct (mt_threads s !! j) as [t|] eqn:Hj.
    + destruct (t_status t) eqn:Hst.
      * exists (Worker j). cbn [mt_step]. unfold worker_step. rewrite Hj.
        destruct (Hth j t Hj) as (Hp & Hid & HjN & _).
        destruct t as [q i st]. cbn [t_prec t_id t_status] in *. subst st i.
        destruct (benchmark_runs q share (el q j) Hsh) as (kr & _ & ->).
        rewrite (Hlen q).
        replace (j <? n_threads)%nat with true by (symmetry; now apply Nat.ltb_lt).
        eauto.
      * exists Orchestrator. cbn [mt_step]. unfold orch_step.
        rewrite Ec, Hj, Hst. eauto.
      * exfalso. pose proof (proj1 (Hjn j t Hj) Hst). lia.
    + exists Orchestrator. cbn [mt_step]. unfold orch_step. rewrite Ec, Hj.
      destruct p; eauto.
Qed.

Lemma round_completes_from (n : nat) (s : mt_state) :
  inv s -> 0 <= share < SIZE_MAX1 -> left s = n ->
  exists sched s',
    run_schedule n_threads share el sched s = Some s' /\ mt_pc s' = PDone.
Proof.
  revert s. induction n as [|n IH]; intros s Hinv Hsh Hn.
  - destruct (pc_done_dec (mt_pc s)) as [Hd|Hnd].
    + exists [], s. split; [reflexivity|exact Hd].
    + destruct (round_progress s Hinv Hsh Hnd) as (a & s' & Hs).
      pose proof (mt_step_counts a s s' Hinv Hs). lia.
  - destruct (pc_done_dec (mt_pc s)) as [Hd|Hnd].
    + exists [], s. split; [reflexivity|exact Hd].
    + destruct (round_progress s Hinv Hsh Hnd) as (a & s1 & Hs).
      pose proof (mt_step_counts a s s1 Hinv Hs) as Hc.
      destruct (IH s1 (mt_step_inv _ _ _ _ _ _ Hinv Hs) Hsh ltac:(lia))
        as (sched & s' & Hrun & Hd).
      exists (a :: sched), s'. split; [|exact Hd].
      cbn [run_schedule]. now rewrite Hs.
Qed.
End RoundProgress.

(** ** Further properties of the round *)

Lemma run_schedule_app (n_threads : nat) (share : Z)
    (el : precision -> nat -> double) (sched sched' : list action)
    (s s' : mt_state) :
  run_schedule n_threads share el sched s = Some s' ->
  run_schedule n_threads share el (sched ++ sched') s =
  run_schedule n_threads share el sched' s'.
Proof.
  revert s. induction sched as [|a sched IH]; intros s H.
  - injection H as <-. reflexivity.
  - cbn [run_schedule app] in *.
    destruct (mt_step n_threads share el a s) as [s1|]; [|discriminate]. auto.
Qed.

(** X1. A round never deadlocks: whatever has been scheduled so far, as long
    as the round is not over some thread can take a step (a [join] only
    waits for a worker that can still run), and the schedule can be
    extended to one that finishes the round. *)
Theorem round_can_always_finish (n_threads : nat) (share : Z)
    (el : precision -> nat -> double) (sched : list action) (s : mt_state) :
  0 <= share < SIZE_MAX1 ->
  run_schedule n_threads share el sched (round_init n_threads) = Some s ->
  (mt_pc s <> PDone ->
   exists a s', mt_step n_threads share el a s = Some s') /\
  exists sched' s',
    run_schedule n_threads share el (sched ++ sched') (round_init n_threads)
      = Some s' /\ mt_pc s' = PDone.
Proof.
  intros Hsh Hrun.
  pose proof (reachable_inv n_threads share el sched s Hrun) as Hinv. split.
  - now apply round_progress.
  - destruct (round_completes_from n_threads share el _ s Hinv Hsh eq_refl)
      as (sched' & s' & Hrun' & Hd).
    exists sched', s'. split; [|exact Hd].
    now rewrite (run_schedule_app _ _ _ _ _ _ _ Hrun).
Qed.

Lemma round_can_always_finish_witness :
  0 <= 2 < SIZE_MAX1 /\
  exists s,
    run_schedule 2 2 (fun _ _ => D_of_Z 1) [Orchestrator; Orchestrator]
      (round_init 2) = Some s /\
    exists sched' s',
      run_schedule 2 2 (fun _ _ => D_of_Z 1)
        ([Orchestrator; Orchestrator] ++ sched') (round_init 2) = Some s' /\
      mt_pc s' = PDone.
Proof.
  split; [split; zcmp|].
  eexists. split; [reflexivity|].
  exact (proj2 (round_can_always_finish 2 2 (fun _ _ => D_of_Z 1)
                  [Orchestrator; Orchestrator] _
                  ltac:(split; zcmp) eq_refl)).
Defined.

(** X2. A round is bounded: no schedule runs for more than
    [6 * n_threads + 4] steps, and one that finishes the round takes
    exactly that many (per phase: a spawn, a run and a join for each
    worker, the exit of the spawn loop and the sum). *)
Theorem round_step_count (n_threads : nat) (share : Z)
    (el : precision -> nat -> double) (sched : list action) (s : mt_state) :
  run_schedule n_threads share el sched (round_init n_threads) = Some s ->
  (List.length sched <= 6 * n_threads + 4)%nat /\
  (mt_pc s = PDone -> List.length sched = (6 * n_threads + 4)%nat).
Proof.
  intro Hrun.
  pose proof (run_schedule_counts n_threads share el sched _ s
                (round_init_inv n_threads share el) Hrun) as Hc.
  assert (H0 : steps_left n_threads (round_init n_threads) = (6 * n_threads + 4)%nat)
    by (unfold steps_left; cbn; lia).
  split; [lia|]. intro Hd.
  pose proof (steps_left_done n_threads share el s
                (reachable_inv n_threads share el sched s Hrun) Hd). lia.
Qed.

Lemma round_step_count_witness :
  exists s,
    run_schedule 2 2 (fun _ _ => D_of_Z 1) (eager_schedule 2) (round_init 2)
      = Some s /\
    (List.length (eager_schedule 2) <= 6 * 2 + 4)%nat.
Proof.
  assert (H : exists s,
    run_schedule 2 2 (fun _ _ => D_of_Z 1) (eager_schedule 2) (round_init 2)
      = Some s) by (vm_compute; eexists; reflexivity).
  destruct H as [s Hs]. exists s. split; [exact Hs|].
  exact (proj1 (round_step_count 2 2 _ _ s Hs)).
Defined.

(** X3. The outcome of a round does not depend on the interleaving: any two
    schedules that finish the round leave the same result vectors, each
    slot holding the throughput of the worker of that index, and the same
    totals. *)
Theorem round_outcome_is_schedule_independent (n_threads : nat) (share : Z)
    (el : precision -> nat -> double) (sched1 sched2 : list action)
    (s1 s2 : mt_state) (p : precision) :
  run_schedule n_threads share el sched1 (round_init n_threads) = Some s1 ->
  run_schedule n_threads share el sched2 (round_init n_threads) = Some s2 ->
  mt_pc s1 = PDone -> mt_pc s2 = PDone ->
  results_of p s1 = results_of p s2 /\
  total_of p s1 = total_of p s2 /\
  results_of p s1 =
    List.map (fun i => throughput (lanes_of p) share (el p i)) (seq 0 n_threads).
Proof.
  intros H1 H2 D1 D2.
  destruct (round_totals n_threads share el sched1 s1 p H1 D1) as [R1 T1].
  destruct (round_totals n_threads share el sched2 s2 p H2 D2) as [R2 T2].
  split; [congruence|]. split; [congruence|exact R1].
Qed.

Lemma round_outcome_is_schedule_independent_witness :
  exists s1 s2,
    run_schedule 2 2 (fun _ _ => D_of_Z 1) (eager_schedule 2) (round_init 2)
      = Some s1 /\
    run_schedule 2 2 (fun _ _ => D_of_Z 1)
      ([Orchestrator; Orchestrator; Orchestrator; Worker 1; Worker 0;
        Orchestrator; Orchestrator; Orchestrator;
        Orchestrator; Orchestrator; Orchestrator; Worker 0; Worker 1;
        Orchestrator; Orchestrator; Orchestrator])
      (round_init 2) = Some s2 /\
    mt_pc s1 = PDone /\ mt_pc s2 = PDone /\
    results_of FP32 s1 = results_of FP32 s2.
Proof.
  assert (H1 : exists s,
    run_schedule 2 2 (fun _ _ => D_of_Z 1) (eager_schedule 2) (round_init 2)
      = Some s /\ mt_pc s = PDone) by (vm_compute; eexists; split; reflexivity).
  assert (H2 : exists s,
    run_schedule 2 2 (fun _ _ => D_of_Z 1)
      ([Orchestrator; Orchestrator; Orchestrator; Worker 1; Worker 0;
        Orchestrator; Orchestrator; Orchestrator;
        Orchestrator; Orchestrator; Orchestrator; Worker 0; Worker 1;
        Orchestrator; Orchestrator; Orchestrator])
      (round_init 2) = Some s /\ mt_pc s = PDone)
    by (vm_compute; eexists; split; reflexivity).
  destruct H1 as (s1 & R1 & D1). destruct H2 as (s2 & R2 & D2).
  exists s1, s2. repeat (split; [assumption|]).
  exact (proj1 (round_outcome_is_schedule_independent 2 2 _ _ _ s1 s2 FP32
                  R1 R2 D1 D2)).
Defined.

Section RoundMore.
Variable n_threads : nat.
Variable share : Z.
Variable el : precision -> nat -> double.

Lemma mt_step_totals_fresh (a : action) (s s' : mt_state) :
  totals_fresh s -> mt_step n_threads share el a s = Some s' -> totals_fresh s'.
Proof.
  intros Hf Hstep.
  assert (Hkeep : forall e st,
            mt_log st = e :: mt_log s ->
            (forall q, total_of q st = total_of q s) ->
            (forall q, is_sum q e = false) -> totals_fresh st).
  { intros e st El Et Hns q Hq. rewrite El, logged_cons, Hns in Hq.
    rewrite Et. now apply Hf. }
  destruct a as [|k]; cbn [mt_step] in Hstep.
  - unfold orch_step in Hstep.
    destruct (mt_pc s) as [p i|p j|]; [| |discriminate].
    + destruct (i <? n_threads)%nat; injection Hstep as <-.
      * apply (Hkeep (EvSpawn p i share)); [reflexivity| |reflexivity].
        intros []; reflexivity.
      * intros q Hq. destruct q; apply (Hf _ Hq).
    + destruct (mt_threads s !! j) as [t|].
      * destruct (t_status t); try discriminate. injection Hstep as <-.
        apply (Hkeep (EvJoin p j)); [reflexivity| |reflexivity].
        intros []; reflexivity.
      * destruct p; injection Hstep as <-; intros q Hq;
          cbn [mt_log log_event set_pc set_threads set_total] in Hq;
          rewrite logged_cons in Hq; destruct q; cbn in Hq;
          try discriminate; apply (Hf _ Hq).
  - unfold worker_step in Hstep.
    destruct (mt_threads s !! k) as [[p i st]|]; [|discriminate].
    destruct st; try discriminate.
    destruct (benchmark p share (el p i)) as [r|]; [|discriminate].
    destruct (i <? List.length (results_of p s))%nat; [|discriminate].
    injection Hstep as <-.
    apply (Hkeep (EvWrite p i i (b_flops r))).
    + destruct p; reflexivity.
    + intros q. destruct p, q; reflexivity.
    + reflexivity.
Qed.

Lemma reachable_totals_fresh (sched : list action) (s0 s : mt_state) :
  totals_fresh s0 ->
  run_schedule n_threads share el sched s0 = Some s -> totals_fresh s.
Proof.
  revert s0. induction sched as [|a sched IH]; intros s0 Hf Hrun.
  - injection Hrun as <-. exact Hf.
  - cbn [run_schedule] in Hrun.
    destruct (mt_step n_threads share el a s0) as [s1|] eqn:Hs; [|discriminate].
    eapply IH; [|exact Hrun]. eapply mt_step_totals_fresh; eauto.
Qed.

(** The number of stores into a slot is one if a store is logged and zero
    otherwise. *)
Lemma writes_to_logged (log : list mt_event) (p : precision) (slot : nat) :
  log_ok n_threads share log ->
  writes_to p slot log = if logged (is_write p slot) log then 1%nat else 0%nat.
Proof.
  induction log as [|e log IH]; [reflexivity|].
  cbn [log_ok]. intros [Hok He]. specialize (IH Hok).
  rewrite logged_cons. unfold writes_to in *. cbn [List.filter].
  destruct e as [q j sh|q j sl v|q j|q t]; cbn [is_write orb]; try exact IH.
  destruct He as (-> & _ & _ & Hnw & _).
  destruct (prec_eqb p q && (slot =? j)%nat) eqn:E; cbn [orb]; [|exact IH].
  apply andb_true_iff in E as [E1 E2].
  apply prec_eqb_eq in E1. apply Nat.eqb_eq in E2. subst q j.
  cbn [List.length]. rewrite IH, Hnw. reflexivity.
Qed.
End RoundMore.

(** X4. At every moment of a round, under every schedule, a total that has
    been computed is the left-to-right sum of its result vector as it
    stands, and that vector holds every worker's throughput in the slot of
    its index: nothing touches a vector after it has been summed, so the
    single-precision total printed at the end of the round is still the sum
    of [results_sp]. *)
Theorem computed_totals_match_vectors (n_threads : nat) (share : Z)
    (el : precision -> nat -> double) (sched : list action) (s : mt_state)
    (p : precision) (t : double) :
  run_schedule n_threads share el sched (round_init n_threads) = Some s ->
  total_of p s = Some t ->
  t = aggregate (results_of p s) /\
  results_of p s =
    List.map (fun i => throughput (lanes_of p) share (el p i)) (seq 0 n_threads).
Proof.
  intros Hrun Ht.
  pose proof (reachable_inv n_threads share el sched s Hrun) as Hinv.
  assert (Hf : totals_fresh s).
  { eapply reachable_totals_fresh; [|exact Hrun].
    intros q _. destruct q; reflexivity. }
  destruct Hinv as [Hlen _ _ _ _ _ Hres Htot].
  assert (Hsum : logged (is_sum p) (mt_log s) = true).
  { destruct (logged (is_sum p) (mt_log s)) eqn:E; [reflexivity|].
    rewrite (Hf p E) in Ht. discriminate. }
  destruct (Htot p Hsum) as [Ht' Hw]. split; [congruence|].
  apply list_eq. intro i. rewrite list_lookup_fmap.
  destruct (decide (i < n_threads)%nat) as [Hi|Hi].
  - rewrite (Hres p i Hi), (Hw i Hi), lookup_seq_lt by exact Hi. reflexivity.
  - rewrite lookup_ge_None_2 by (rewrite Hlen; lia).
    rewrite lookup_seq_ge by lia. reflexivity.
Qed.

Lemma computed_totals_match_vectors_witness :
  exists s t,
    run_schedule 2 2 (fun _ _ => D_of_Z 1)
      [Orchestrator; Worker 0; Orchestrator; Worker 1; Orchestrator;
       Orchestrator; Orchestrator; Orchestrator; Orchestrator]
      (round_init 2) = Some s /\
    total_of FP32 s = Some t /\ t = aggregate (results_of FP32 s).
Proof.
  assert (H : exists s t,
    run_schedule 2 2 (fun _ _ => D_of_Z 1)
      [Orchestrator; Worker 0; Orchestrator; Worker 1; Orchestrator;
       Orchestrator; Orchestrator; Orchestrator; Orchestrator]
      (round_init 2) = Some s /\ total_of FP32 s = Some t)
    by (vm_compute; eexists _, _; split; reflexivity).
  destruct H as (s & t & Hs & Ht). exists s, t.
  split; [exact Hs|]. split; [exact Ht|].
  exact (proj1 (computed_totals_match_vectors 2 2 _ _ s FP32 t Hs Ht)).
Defined.

(** X5. Threads are never destroyed unjoined and never pile up: at every
    moment of a round at most [n_threads] threads exist, the thread at
    position [k] carries the index [k] and runs the kernel of the phase at
    hand, and whenever the orchestrator leaves a join loop (to sum, and
    then to clear the thread vector or to return) every thread has been
    joined. *)
Theorem threads_are_joined_before_destruction (n_threads : nat) (share : Z)
    (el : precision -> nat -> double) (sched : list action) (s : mt_state) :
  run_schedule n_threads share el sched (round_init n_threads) = Some s ->
  (List.length (mt_threads s) <= n_threads)%nat /\
  (forall k t, mt_threads s !! k = Some t ->
               t_id t = k /\ t_prec t = cur_prec (mt_pc s) /\
               (k < n_threads)%nat) /\
  (forall p j, mt_pc s = PJoin p j -> mt_threads s !! j = None ->
               forall k t, mt_threads s !! k = Some t -> t_status t = Joined) /\
  (mt_pc s = PDone ->
   forall k t, mt_threads s !! k = Some t -> t_status t = Joined).
Proof.
  intro Hrun.
  destruct (reachable_inv n_threads share el sched s Hrun)
    as [_ _ Hth _ Hpc _ _ _].
  split; [|split; [|split]].
  - destruct (mt_pc s); cbn [pc_ok] in Hpc; lia.
  - intros k t Hk. destruct (Hth k t Hk) as (H1 & H2 & H3 & _). auto.
  - intros p j Ec Hj k t Hk. rewrite Ec in Hpc. destruct Hpc as (Hl & _ & Hjn).
    apply lookup_ge_None in Hj. apply (Hjn k t Hk).
    pose proof (lookup_lt_Some _ _ _ Hk). lia.
  - intros Ec k t Hk. rewrite Ec in Hpc. destruct Hpc as [_ HJ]. eauto.
Qed.

Lemma threads_are_joined_before_destruction_witness :
  exists s,
    run_schedule 2 2 (fun _ _ => D_of_Z 1) (eager_schedule 2) (round_init 2)
      = Some s /\
    (List.length (mt_threads s) <= 2)%nat.
Proof.
  assert (H : exists s,
    run_schedule 2 2 (fun _ _ => D_of_Z 1) (eager_schedule 2) (round_init 2)
      = Some s) by (vm_compute; eexists; reflexivity).
  destruct H as [s Hs]. exists s. split; [exact Hs|].
  exact (proj1 (threads_are_joined_before_destruction 2 2 _ _ s Hs)).
Defined.

(** X6. In a finished round every slot of both result vectors has been
    stored to exactly once; at any earlier moment, at most once. *)
Theorem each_slot_is_stored_once (n_threads : nat) (share : Z)
    (el : precision -> nat -> double) (sched : list action) (s : mt_state)
    (p : precision) (slot : nat) :
  run_schedule n_threads share el sched (round_init n_threads) = Some s ->
  (writes_to p slot (mt_log s) <= 1)%nat /\
  (mt_pc s = PDone -> (slot < n_threads)%nat ->
   writes_to p slot (mt_log s) = 1%nat).
Proof.
  intro Hrun.
  destruct (reachable_inv n_threads share el sched s Hrun)
    as [_ Hlog _ _ _ Hphase _ Htot].
  rewrite (writes_to_logged n_threads share _ p slot Hlog).
  split; [destruct (logged _ _); lia|].
  intros Hd Hs. rewrite Hd in Hphase. destruct Hphase as [H64 H32]. cbn in H32.
  assert (Hsum : logged (is_sum p) (mt_log s) = true) by (destruct p; assumption).
  destruct (Htot p Hsum) as [_ Hw]. now rewrite (Hw slot Hs).
Qed.

Lemma each_slot_is_stored_once_witness :
  exists s,
    run_schedule 2 2 (fun _ _ => D_of_Z 1) (eager_schedule 2) (round_init 2)
      = Some s /\
    (writes_to FP64 1 (mt_log s) <= 1)%nat.
Proof.
  assert (H : exists s,
    run_schedule 2 2 (fun _ _ => D_of_Z 1) (eager_schedule 2) (round_init 2)
      = Some s) by (vm_compute; eexists; reflexivity).
  destruct H as [s Hs]. exists s. split; [exact Hs|].
  exact (proj1 (each_slot_is_stored_once 2 2 _ _ s FP64 1%nat Hs)).
Defined.

(** ** Further properties of the kernels and of the throughput *)

Lemma SFdiv_pos_pos (prec emax : Z) (m1 m2 : positive) (e1 e2 : Z) :
  1 < prec -> prec < emax ->
  sign_of (SFdiv prec emax (S754_finite false m1 e1) (S754_finite false m2 e2))
  = Some false.
Proof.
  intros Hprec Hemax. cbn [SFdiv xorb].
  pose proof (SFdiv_core_binary_nonneg prec emax Hprec Hemax m1 m2 e1 e2) as H.
  destruct (SFdiv_core_binary prec emax (Z.pos m1) e1 (Z.pos m2) e2) as [[mz ez] lz].
  cbn [fst] in H. now apply binary_round_aux_sign.
Qed.

Lemma throughput_sign (p : precision) (n : Z) (mant : positive) (e : Z) :
  0 <= n < SIZE_MAX1 ->
  sign_of (throughput (lanes_of p) n (S754_finite false mant e)) = Some false.
Proof.
  intro Hn. unfold throughput.
  destruct (Z.eq_dec n 0) as [->|Hnz].
  - replace (flops_count (lanes_of p) 0) with (S754_zero false)
      by (destruct p; reflexivity).
    reflexivity.
  - destruct (flops_count_normal p n ltac:(lia)) as (m & e' & -> & _).
    apply SFdiv_pos_pos; reflexivity.
Qed.

(** X7. For every iteration count of a [size_t] and every positive finite
    duration the benchmark returns, and the throughput it returns is a
    non-negative number or plus infinity: never a NaN, never negative. *)
Theorem throughput_is_nonnegative (p : precision) (n : Z)
    (mant : positive) (e : Z) :
  0 <= n < SIZE_MAX1 ->
  exists r,
    benchmark p n (S754_finite false mant e) = Some r /\
    sign_of (b_flops r) = Some false.
Proof.
  intro Hn.
  destruct (benchmark_runs p n (S754_finite false mant e) Hn) as (k & _ & ->).
  eexists. split; [reflexivity|]. cbn [b_flops].
  now apply throughput_sign.
Qed.

Lemma throughput_is_nonnegative_witness :
  0 <= 1000 < SIZE_MAX1 /\
  exists r,
    benchmark FP64 1000 (S754_finite false 1 (-10)) = Some r /\
    sign_of (b_flops r) = Some false.
Proof.
  split; [split; zcmp|].
  exact (throughput_is_nonnegative FP64 1000 1 (-10) ltac:(split; zcmp)).
Defined.

(** X8. With an iteration count of zero the loop body never runs: the
    accumulators keep their seeds, and the returned throughput is 0 / elapsed,
    that is a zero with the duration's sign for a finite non-zero duration
    and NaN for a duration of zero. *)
Theorem zero_iterations (p : precision) (elapsed : double) :
  exists r,
    benchmark p 0 elapsed = Some r /\
    k_steps (b_kernel r) = 0 /\
    k_accs (b_kernel r) = kernel_init (fprec p) (femax p) (log_lanes_of p) /\
    b_flops r = Ddiv (S754_zero false) elapsed /\
    (forall s, elapsed = S754_zero s -> b_flops r = S754_nan) /\
    (forall s m e, elapsed = S754_finite s m e -> b_flops r = S754_zero s).
Proof.
  assert (H0 : 0 <= 0 < SIZE_MAX1) by (split; zcmp).
  destruct (benchmark_runs p 0 elapsed H0) as (k & Hk & ->).
  rewrite kernel_runs in Hk by exact H0. injection Hk as <-.
  eexists. split; [reflexivity|]. cbn [b_kernel b_flops k_steps k_accs].
  split; [reflexivity|]. split; [reflexivity|].
  assert (Hf : throughput (lanes_of p) 0 elapsed = Ddiv (S754_zero false) elapsed).
  { unfold throughput.
    replace (flops_count (lanes_of p) 0) with (S754_zero false)
      by (destruct p; reflexivity).
    reflexivity. }
  rewrite Hf. split; [reflexivity|]. split.
  - intros s ->. reflexivity.
  - intros s m e ->. reflexivity.
Qed.

Section Doubling.
Variables prec emax : Z.
Hypothesis Hprec : 1 < prec.
Hypothesis Hemax : prec < emax.
Local Set Default Proof Using "Hprec Hemax".

(** Adding a normal number to itself raises its exponent by one. *)
Lemma SFadd_double (m : positive) (e : Z) :
  Z.pos (digits2_pos m) = prec ->
  emin prec emax <= e -> e + prec + 2 <= emax ->
  SFadd prec emax (S754_finite false m e) (S754_finite false m e) =
  S754_finite false m (e + 1).
Proof.
  intros Hd Hlo Hhi. cbn [SFadd]. rewrite Z.min_id.
  rewrite shl_align_noop by lia. cbn [fst cond_Zopp].
  change (Z.pos m + Z.pos m) with (Z.pos (m + m)). cbn [binary_normalize].
  transitivity (binary_round prec emax false (m + m) (e + 1 - 1));
    [f_equal; lia|].
  rewrite (binary_round_canon prec emax Hprec Hemax false m (m + m) 1 (e + 1));
    [|lia|rewrite Pos2Z.inj_add, Z.pow_1_r; lia|lia|lia|lia].
  unfold canon. rewrite Hd, Z.sub_diag, Z.pow_0_r, Z.mul_1_r, Pos2Z.id.
  f_equal. lia.
Qed.

Lemma doubling_exact (k : nat) (m : positive) (e : Z) :
  Z.pos (digits2_pos m) = prec ->
  emin prec emax <= e -> e + Z.of_nat k + prec + 1 <= emax ->
  Nat.iter k (fun y => SFadd prec emax y y) (S754_finite false m e) =
  S754_finite false m (e + Z.of_nat k).
Proof.
  intros Hd Hlo. induction k as [|k IH]; intro Hhi.
  - cbn [Nat.iter nat_rect]. f_equal. lia.
  - rewrite Nat.iter_succ, IH by lia.
    rewrite SFadd_double by (assumption || lia). f_equal. lia.
Qed.
End Doubling.

(** X9. The horizontal sums lose nothing: for every iteration count up to
    the budget and either precision, every accumulator holds the same
    normal number [m * 2^e] in all its lanes, and its horizontal sum is
    exactly the lane times the number of lanes, [m * 2^(e + 4)] for 16
    lanes and [m * 2^(e + 3)] for 8. *)
Theorem horizontal_sums_are_exact (p : precision) (n : Z) :
  0 <= n <= ITERATIONS ->
  exists r,
    kernel (fprec p) (femax p) (log_lanes_of p) n = Some r /\
    Forall (fun v => exists m e,
              v = replicate (Z.to_nat (lanes_of p)) (S754_finite false m e) /\
              vreduce (fprec p) (femax p) (log_lanes_of p) v =
              S754_finite false m (e + Z.of_nat (log_lanes_of p)))
           (acc_list (k_accs r)).
Proof.
  intro Hn.
  assert (Hsz : 0 <= n < SIZE_MAX1).
  { unfold ITERATIONS in Hn. split; [lia|].
    apply Z.le_lt_trans with 100000000; [lia|reflexivity]. }
  eexists. split; [apply kernel_runs; exact Hsz|]. cbn [k_accs].
  rewrite acc_list_after. apply Forall_fmap, List.Forall_forall.
  intros s Hs. cbn.
  assert (Hn' : Z.of_nat (Z.to_nat n) <= ITERATIONS) by lia.
  assert (Hb : exists m e,
            Nat.iter (Z.to_nat n) (lane_step (fprec p) (femax p)) s =
              S754_finite false m e /\
            Z.pos (digits2_pos m) = fprec p /\ - fprec p <= e <= 73).
  { destruct p; cbn [fprec femax] in *.
    - destruct (lane_bound_F s (Z.to_nat n) Hs Hn') as (m & e & H1 & H2 & H3).
      exists m, e. split; [exact H1|]. split; [exact H2|].
      unfold Fprec in *. lia.
    - destruct (lane_bound_D s (Z.to_nat n) Hs Hn') as (m & e & H1 & H2 & H3).
      exists m, e. split; [exact H1|]. split; [exact H2|].
      unfold Dprec in *. lia. }
  destruct Hb as (m & e & -> & Hd & He).
  exists m, e. split; [destruct p; reflexivity|].
  unfold vreduce. rewrite reduce_add_replicate.
  apply doubling_exact; try assumption; destruct p; cbn in *;
    unfold emin, Fprec, Femax, Dprec, Demax in *; lia.
Qed.

Lemma horizontal_sums_are_exact_witness :
  0 <= 2 <= ITERATIONS /\
  exists r,
    kernel (fprec FP64) (femax FP64) (log_lanes_of FP64) 2 = Some r /\
    Forall (fun v => exists m e,
              v = replicate (Z.to_nat (lanes_of FP64)) (S754_finite false m e) /\
              vreduce (fprec FP64) (femax FP64) (log_lanes_of FP64) v =
              S754_finite false m (e + Z.of_nat (log_lanes_of FP64)))
           (acc_list (k_accs r)).
Proof.
  split; [split; zcmp|].
  exact (horizontal_sums_are_exact FP64 2 ltac:(split; zcmp)).
Defined.

(** ** Further properties of the driver *)

Lemma SFadd_sign (prec emax : Z) (x y : spec_float) :
  1 < prec -> prec < emax ->
  sign_of x = Some false -> sign_of y = Some false ->
  sign_of (SFadd prec emax x y) = Some false.
Proof.
  intros Hprec Hemax Hx Hy.
  destruct x as [sx|sx| |sx mx ex]; cbn [sign_of] in Hx; try discriminate;
    injection Hx as ->;
    destruct y as [sy|sy| |sy my ey]; cbn [sign_of] in Hy; try discriminate;
    injection Hy as ->; try reflexivity.
  cbn [SFadd cond_Zopp].
  change (Z.pos ?a + Z.pos ?b) with (Z.pos (a + b)).
  cbn [binary_normalize]. unfold binary_round.
  destruct (shl_align _ _ _) as [mz ez].
  now apply binary_round_aux_sign.
Qed.

Lemma aggregate_sign (l : list double) (a : double) :
  sign_of a = Some false ->
  Forall (fun x => sign_of x = Some false) l ->
  sign_of (fold_left Dadd l a) = Some false.
Proof.
  intros Ha Hl. revert a Ha.
  induction Hl as [|x l Hx _ IH]; intros a Ha; [exact Ha|].
  cbn [fold_left]. apply IH. unfold Dadd.
  apply SFadd_sign; [reflexivity|reflexivity|exact Ha|exact Hx].
Qed.

(** X10. When every worker of a phase measures a positive finite duration,
    the phase completes and the total it sums up is a non-negative number
    or plus infinity: neither the per-worker divisions nor the additions
    of the summing loop can produce a NaN or a negative total. *)
Theorem phase_total_is_nonnegative (m : machine) (p : precision)
    (num_threads : Z) :
  avx512f m = true -> 0 < num_threads < SIZE_MAX1 ->
  (forall i, (i < Z.to_nat num_threads)%nat ->
     exists mant e,
       elapsed_worker m num_threads p i = S754_finite false mant e) ->
  exists out total,
    run_phase m p num_threads = (out, inr total) /\
    sign_of total = Some false.
Proof.
  intros Hm Hn Hel. rewrite run_phase_supported by assumption.
  eexists _, _. split; [reflexivity|].
  unfold round_total, aggregate. apply aggregate_sign; [reflexivity|].
  apply List.Forall_forall. intros x Hx.
  apply List.in_map_iff in Hx. destruct Hx as (i & <- & Hi).
  apply List.in_seq in Hi.
  destruct (Hel i ltac:(lia)) as (mant & e & ->).
  apply throughput_sign.
  assert (Hq : 0 <= ITERATIONS / num_threads <= ITERATIONS).
  { split; [apply Z.div_pos; [unfold ITERATIONS|]; lia|].
    apply Z.div_le_upper_bound; [lia|]. unfold ITERATIONS. nia. }
  split; [lia|].
  apply Z.le_lt_trans with ITERATIONS; [lia|reflexivity].
Qed.

Lemma phase_total_is_nonnegative_witness :
  exists out total,
    run_phase (sample_machine true) FP32 4 = (out, inr total) /\
    sign_of total = Some false.
Proof.
  apply (phase_total_is_nonnegative (sample_machine true) FP32 4).
  - reflexivity.
  - split; zcmp.
  - intros i _. eexists _, _. vm_compute. reflexivity.
Defined.

(** X11. The detected number of hardware threads is printed and used for
    nothing else: on two machines with AVX-512F that differ only in that
    number, the sessions end alike and their reports differ only in the
    one printed integer.  The rounds run with 4, 8 and 16 workers whatever
    the processor reports. *)
Theorem hardware_concurrency_is_only_printed (m1 m2 : machine) :
  avx512f m1 = true -> avx512f m2 = true ->
  elapsed_single m1 = elapsed_single m2 ->
  elapsed_worker m1 = elapsed_worker m2 ->
  exists pre post,
    run_program m1 =
      (pre ++ PrintInt (hardware_concurrency m1) :: post, Exit 0) /\
    run_program m2 =
      (pre ++ PrintInt (hardware_concurrency m2) :: post, Exit 0) /\
    Forall (fun n => In (Round FP32 n (ITERATIONS / n)) post /\
                     In (Round FP64 n (ITERATIONS / n)) post) [4; 8; 16].
Proof.
  intros H1 H2 Hs Hw.
  rewrite !run_program_supported by assumption.
  assert (Hr : forall n, round_report m1 n = round_report m2 n).
  { intro n. unfold round_report, round_total. rewrite Hw. reflexivity. }
  assert (HR : forall n,
             In (Round FP32 n (ITERATIONS / n)) (round_report m2 n) /\
             In (Round FP64 n (ITERATIONS / n)) (round_report m2 n)).
  { intro n. unfold round_report. split; apply in_or_app; left.
    - left. reflexivity.
    - right. left. reflexivity. }
  unfold expected_report. rewrite Hs, !Hr.
  exists (banner ++ [Measure FP32 ITERATIONS] ++
          gflops_line "  单精度 (FP32): "
            (throughput 16 ITERATIONS (elapsed_single m2 FP32)) ++
          [Measure FP64 ITERATIONS] ++
          gflops_line "  双精度 (FP64): "
            (throughput 8 ITERATIONS (elapsed_single m2 FP64)) ++
          [Print (nl ++ "硬件线程数: ")]).
  exists (Print nl :: round_report m2 4 ++ round_report m2 8 ++
          round_report m2 16 ++
          [Print (nl ++ "========================================" ++ nl)]).
  split; [|split].
  - rewrite <- !app_assoc. reflexivity.
  - rewrite <- !app_assoc. reflexivity.
  - destruct (HR 4) as [A4 B4], (HR 8) as [A8 B8], (HR 16) as [A16 B16].
    apply List.Forall_cons; [|apply List.Forall_cons;
                               [|apply List.Forall_cons; [|apply List.Forall_nil]]].
    + split; apply in_cons, in_or_app; left; assumption.
    + split; apply in_cons, in_or_app; right; apply in_or_app; left; assumption.
    + split; apply in_cons, in_or_app; right; apply in_or_app; right;
        apply in_or_app; left; assumption.
Qed.

Lemma hardware_concurrency_is_only_printed_witness :
  exists pre post,
    run_program (sample_machine true) =
      (pre ++ PrintInt 8 :: post, Exit 0) /\
    run_program (Machine true 64 (fun _ => D_of_Z 1) (fun _ _ _ => D_of_Z 1)) =
      (pre ++ PrintInt 64 :: post, Exit 0) /\
    Forall (fun n => In (Round FP32 n (ITERATIONS / n)) post /\
                     In (Round FP64 n (ITERATIONS / n)) post) [4; 8; 16].
Proof.
  exact (hardware_concurrency_is_only_printed (sample_machine true)
           (Machine true 64 (fun _ => D_of_Z 1) (fun _ _ _ => D_of_Z 1))
           eq_refl eq_refl eq_refl eq_refl).
Defined.
